(** * Circuit simulator: entity identity registry and numeric codec

    A shallow embedding of [src/components/electronic-part/common.ts]
    (identifier allocation, the two component registries, the component
    lifecycle hooks, the watcher on [id]) and of [src/lib/number.ts] (engineering-notation
    parser, rounding to significant digits), with the properties the
    specification states about them. *)

From Stdlib Require Import Ascii String QArith Qabs Qround Qpower.
From stdpp Require Import base numbers option list gmap strings pretty.

(** ** Outcomes of a call

    A JavaScript call returns or throws.  [Error msg] is [new Error(msg)];
    [TypeError] is what dereferencing [null] raises (the [!] assertions of
    the source do nothing at run time); [RangeError] is raised by
    [String.prototype.repeat] on a negative or infinite count.  [OutOfFuel]
    exists only in the model: a loop of the source that has no static bound
    is given a counter, and reaching zero is shown impossible. *)

Inductive exn : Type :=
  | Error (msg : string)
  | TypeError
  | RangeError.

Inductive result (A : Type) : Type :=
  | Ok (a : A)
  | Throw (e : exn)
  | OutOfFuel.

Arguments Ok {A} a.
Arguments Throw {A} e.
Arguments OutOfFuel {A}.

(** Sequencing: an exception raised by the first call is raised by the
    whole; [x ← r; k] is stdpp's notation for it. *)
#[global] Instance result_bind : MBind result := λ A B k r,
  match r with
  | Ok a => k a
  | Throw e => Throw e
  | OutOfFuel => OutOfFuel
  end.

(** ** Character classes and the two identifier patterns *)

Module Pattern.

Definition code (c : ascii) : N := N_of_ascii c.

Definition is_underscore (c : ascii) : bool := (code c =? 95)%N.

(** [[a-zA-Z]] *)
Definition is_letter (c : ascii) : bool :=
  ((65 <=? code c) && (code c <=? 90) || (97 <=? code c) && (code c <=? 122))%N.

(** [[a-zA-Z0-9]] *)
Definition is_alnum (c : ascii) : bool :=
  (is_letter c || (48 <=? code c) && (code c <=? 57))%N.

(** The longest prefix whose characters satisfy [p], and what follows it:
    a greedy [[...]*]. *)
Fixpoint span (p : ascii → bool) (s : string) : string * string :=
  match s with
  | EmptyString => (EmptyString, EmptyString)
  | String c s' =>
      if p c then let '(a, b) := span p s' in (String c a, b)
      else (EmptyString, s)
  end.

Definition nonempty (s : string) : bool :=
  match s with EmptyString => false | String _ _ => true end.

(** Every character of [s] is in the class [p]. *)
Fixpoint all_chars (p : ascii → bool) (s : string) : bool :=
  match s with
  | EmptyString => true
  | String c s' => p c && all_chars p s'
  end.

(** [id.match(/^([^_]+)(_[^_]+)?$/)], returning capture group 1.  The
    greedy first group stops at the first underscore or at the end; giving
    characters back cannot help, since the second group must start with an
    underscore. *)
Definition match_prefix (id : string) : option string :=
  let '(g1, rest) := span (λ c, negb (is_underscore c)) id in
  if nonempty g1 then
    match rest with
    | EmptyString => Some g1
    | String _ rest' =>
        let '(g2, tail) := span (λ c, negb (is_underscore c)) rest' in
        if nonempty g2 && negb (nonempty tail) then Some g1 else None
    end
  else None.

(** [/[a-zA-Z]+_[a-zA-Z0-9]+/] anchored at the start of [s]. *)
Definition token_here (s : string) : option string :=
  let '(letters, rest) := span is_letter s in
  if nonempty letters then
    match rest with
    | String c rest' =>
        if is_underscore c then
          let '(alnums, _) := span is_alnum rest' in
          if nonempty alnums then Some (letters +:+ String c alnums) else None
        else None
    | EmptyString => None
    end
  else None.

(** [value.match(/[a-zA-Z]+_[a-zA-Z0-9]+/)], element 0: the leftmost
    match, [None] for JavaScript's [null]. *)
Fixpoint match_token (s : string) : option string :=
  match token_here s with
  | Some t => Some t
  | None =>
      match s with
      | EmptyString => None
      | String _ s' => match_token s'
      end
  end.

(** No character of [s] is an underscore: [s] is in [[^_]*]. *)
Definition underscore_free (s : string) : bool :=
  all_chars (λ c, negb (is_underscore c)) s.

End Pattern.

(** ** [components/electronic-part/common.ts] *)

Module Common.

(** [const maxNumber = 50] *)
Definition maxNumber : N := 50.

(** *** The table [mapHash]

    [mapHash] is [{}], a plain object used as a map from ids to [true].
    Its own properties are a finite map.  A read [mapHash[k]] finds an own
    property or, failing that, what every object inherits from
    [Object.prototype]: eleven methods and the accessor [__proto__], as
    the language defines that object. *)
Definition Object_prototype : list string :=
  ["constructor"; "hasOwnProperty"; "isPrototypeOf"; "propertyIsEnumerable";
   "toLocaleString"; "toString"; "valueOf"; "__proto__";
   "__defineGetter__"; "__defineSetter__"; "__lookupGetter__";
   "__lookupSetter__"].

Definition inherited (k : string) : bool := bool_decide (k ∈ Object_prototype).

(** A value used as a condition: a missing one is [undefined], falsy. *)
Definition truthy (v : option bool) : bool := default false v.

(** [mapHash[k]] used as a condition.  An own property holds [true], the
    only value ever written; an inherited one holds a function or, for
    [__proto__], the prototype object, which are truthy. *)
Definition read (mapHash : gmap string bool) (k : string) : bool :=
  truthy (mapHash !! k) || inherited k.

(** The loop bound of [createId]: [None] is [Infinity]. *)
Definition le_max (i : N) (max : option N) : bool :=
  match max with
  | None => true
  | Some k => (i <=? k)%N
  end.

(** [`${pre}_${i}`].  The counter is a natural number: the doubles of the
    source count exactly, and print in positional notation, far beyond the
    size of any table. *)
Definition candidate (pre : string) (i : N) : string :=
  pre +:+ "_" +:+ pretty i.

Definition capacity_error : exn :=
  Error ("(electronic) The maximum number of Devices is " +:+ pretty maxNumber +:+ ".").

(** [for (let i = ...; i <= max; i++) { ... }] of [createId], entered at
    [i]; [fuel] counts the iterations still allowed. *)
Fixpoint createId_loop (mapHash : gmap string bool) (pre : string)
    (max : option N) (fuel : nat) (i : N) : result string :=
  match fuel with
  | O => OutOfFuel
  | S fuel' =>
      if le_max i max then
        let ans := candidate pre i in
        if negb (read mapHash ans) then Ok ans
        else createId_loop mapHash pre max fuel' (i + 1)%N
      else Throw capacity_error
  end.

(** Iterations that always suffice: every iteration but the last finds
    its candidate among the own keys of [mapHash], no candidate being an
    inherited name. *)
Definition createId_fuel (mapHash : gmap string bool) : nat := S (size mapHash).

Definition createId (mapHash : gmap string bool) (id : string) : result string :=
  match Pattern.match_prefix id with
  | None => Throw TypeError
  | Some pre =>
      let max := if decide (pre = "line") then None else Some maxNumber in
      createId_loop mapHash pre max (createId_fuel mapHash) 1%N
  end.

(** [mapHash[id] = true].  The assignment creates or overwrites an own
    property, except for [__proto__]: that name reaches the inherited
    setter, which ignores a value that is no object. *)
Definition markId (mapHash : gmap string bool) (id : string) : gmap string bool :=
  if decide (id = "__proto__") then mapHash else <[id := true]> mapHash.

(** The table after the call, and the value returned.  [delete] removes
    an own property and leaves what is inherited. *)
Definition deleteId (mapHash : gmap string bool) (id : string)
    : gmap string bool * bool :=
  if read mapHash id then (delete id mapHash, true)
  else (mapHash, false).

Definition hasId (mapHash : gmap string bool) (id : string) : bool :=
  read mapHash id.

(** *** Components and the two registries *)

(** A DOM element: its identity as a node, and its [id] attribute. *)
Record HTMLElement : Type := { node : nat; dom_id : string }.

(** The argument of the two finders: [string | HTMLElement]. *)
Inductive Key : Type :=
  | KString (s : string)
  | KElement (e : HTMLElement).

(** Modelled from the spec: [Array.prototype.delete], an extension of the
    repository's own that [beforeDestroy] calls and that is not among the
    sources.  It removes the first element for which the predicate holds
    and does nothing if there is none. *)
Fixpoint array_delete {A : Type} (predicate : A → bool) (l : list A) : list A :=
  match l with
  | [] => []
  | x :: l' => if predicate x then l' else x :: array_delete predicate l'
  end.

Abbreviation ref := nat (only parsing).

Section Components.

(** The part catalog [./parts] is not among the sources: the part types
    and [Electronics[type].pre] are parameters. *)
Context {PartType : Type}.
Variable Electronics_pre : PartType → string.

(** [PartType | LineType] *)
Inductive ElecType : Type :=
  | Line
  | Part (t : PartType).

(** The fields of an [ElectronicCore] instance that the registry reads
    or writes; [el] is Vue's [$el]. *)
Record ElectronicCore : Type := {
  id : string;
  connect : list string;
  type : ElecType;
  el : HTMLElement;
}.

(** Component instances are objects: the registries hold references to
    them, and an assignment to [this.id] is seen through every
    reference.  [objects] is the store, a reference ([ref]) is an index
    in it.

    [changeId] is declared with [@Watch('id')]: the framework keeps, for
    every instance, a watcher that remembers the value of [id] it saw
    last.  An assignment does not call [changeId]; the framework's
    scheduler runs the watchers at the next tick, and a watcher calls
    [changeId(now, last)] if the value differs from the one it saw last.
    [watchers] holds, for every instance, that value, or [None] once the
    instance is destroyed and its watcher torn down. *)
Record State : Type := {
  mapHash : gmap string bool;
  PartComponents : list ref;
  LineComponents : list ref;
  objects : list ElectronicCore;
  watchers : list (option string);
}.

Definition init : State :=
  {| mapHash := ∅; PartComponents := []; LineComponents := []; objects := [];
     watchers := [] |}.

Definition is_line (t : ElecType) : bool :=
  match t with Line => true | Part _ => false end.

(** [this.type === LineType.Line ? 'line' : Electronics[this.type].pre] *)
Definition type_prefix (t : ElecType) : string :=
  match t with
  | Line => "line"
  | Part t => Electronics_pre t
  end.

(** [o.id === s], for the object behind [r]. *)
Definition id_is (st : State) (s : string) (r : ref) : bool :=
  bool_decide (id <$> objects st !! r = Some s).

(** [o.$el === e]: the same node. *)
Definition el_is (st : State) (e : HTMLElement) (r : ref) : bool :=
  bool_decide (node ∘ el <$> objects st !! r = Some (node e)).

Definition with_id (s : string) (o : ElectronicCore) : ElectronicCore :=
  {| id := s; connect := connect o; type := type o; el := el o |}.

(** [this.id = s].  The assignment changes the field and nothing else;
    the watcher runs at the next tick, see [flush]. *)
Definition set_id (st : State) (this : ref) (s : string) : State :=
  {| mapHash := mapHash st;
     PartComponents := PartComponents st;
     LineComponents := LineComponents st;
     objects := alter (with_id s) this (objects st);
     watchers := watchers st |}.

Definition set_mapHash (st : State) (m : gmap string bool) : State :=
  {| mapHash := m;
     PartComponents := PartComponents st;
     LineComponents := LineComponents st;
     objects := objects st;
     watchers := watchers st |}.

Definition set_watcher (st : State) (r : ref) (w : option string) : State :=
  {| mapHash := mapHash st;
     PartComponents := PartComponents st;
     LineComponents := LineComponents st;
     objects := objects st;
     watchers := <[r := w]> (watchers st) |}.

(** The framework instantiating a component whose fields have been
    assigned from its [value] prop by [update].  The watcher on [id] is
    set up before the [created] hook runs and remembers the id it finds. *)
Definition new_component (st : State) (o : ElectronicCore) : State * ref :=
  ({| mapHash := mapHash st;
      PartComponents := PartComponents st;
      LineComponents := LineComponents st;
      objects := objects st ++ [o];
      watchers := watchers st ++ [Some (id o)] |}, length (objects st)).

Definition findPartComponent (st : State) (value : Key) : result ref :=
  match value with
  | KString s =>
      match Pattern.match_token s with
      | None => Throw TypeError
      | Some valueMatch =>
          match find (id_is st valueMatch) (PartComponents st) with
          | Some part => Ok part
          | None => Throw (Error ("Can not find this part: " +:+ s))
          end
      end
  | KElement e =>
      match find (el_is st e) (PartComponents st) with
      | Some part => Ok part
      | None => Throw (Error ("Can not find this part: " +:+ dom_id e))
      end
  end.

Definition findLineComponent (st : State) (value : Key) : result ref :=
  match value with
  | KString s =>
      match find (id_is st s) (LineComponents st) with
      | Some line => Ok line
      | None => Throw (Error ("Can not find this line: " +:+ s))
      end
  | KElement e =>
      match find (el_is st e) (LineComponents st) with
      | Some line => Ok line
      | None => Throw (Error ("Can not find this line: " +:+ dom_id e))
      end
  end.


(** [changeId(newId, oldId)], the method that the [id] watcher calls. *)
Definition changeId (st : State) (newId oldId : string) : State :=
  let marked := markId (mapHash st) newId in
  set_mapHash st (deleteId marked oldId).1.

(** The [created] hook of the component behind [this].  A reference to
    nothing does not occur in the source; the model raises. *)
Definition created (st : State) (this : ref) : result State :=
  match objects st !! this with
  | None => Throw TypeError
  | Some o =>
      newId ← (if Pattern.nonempty (id o) then Ok (id o)
               else createId (mapHash st) (type_prefix (type o)));
      let st1 := set_id st this newId in
      let m := markId (mapHash st1) newId in
      Ok (if is_line (type o)
          then {| mapHash := m;
                  PartComponents := PartComponents st1;
                  LineComponents := LineComponents st1 ++ [this];
                  objects := objects st1;
                  watchers := watchers st1 |}
          else {| mapHash := m;
                  PartComponents := PartComponents st1 ++ [this];
                  LineComponents := LineComponents st1;
                  objects := objects st1;
                  watchers := watchers st1 |})
  end.

(** The [beforeDestroy] hook. *)
Definition beforeDestroy (st : State) (this : ref) : State :=
  match objects st !! this with
  | None => st
  | Some o =>
      let m := (deleteId (mapHash st) (id o)).1 in
      if is_line (type o)
      then {| mapHash := m;
              PartComponents := PartComponents st;
              LineComponents := array_delete (id_is st (id o)) (LineComponents st);
              objects := objects st;
              watchers := watchers st |}
      else {| mapHash := m;
              PartComponents := array_delete (id_is st (id o)) (PartComponents st);
              LineComponents := LineComponents st;
              objects := objects st;
              watchers := watchers st |}
  end.

(** *** The tick

    What the scheduler does with one watcher when it flushes its queue:
    a watcher that is still active compares the id with the value it saw
    last and, if they differ, remembers the new one and calls
    [changeId(now, last)]. *)
Definition run_watcher (st : State) (r : ref) : State :=
  match watchers st !! r, objects st !! r with
  | Some (Some value), Some o =>
      if decide (id o = value) then st
      else set_watcher (changeId st (id o) value) r (Some (id o))
  | _, _ => st
  end.

(** The flush at the next tick: the watchers run in the order in which
    they were created. *)
Definition flush (st : State) : State :=
  foldl run_watcher st (seq 0 (length (watchers st))).

(** *** The lifecycle operations of the specification *)

(** CreateEntity: instantiate, then run [created].  When the hook
    throws, the instance exists but is in no registry. *)
Definition CreateEntity (st : State) (o : ElectronicCore) : result (State * ref) :=
  let '(st0, this) := new_component st o in
  st1 ← created st0 this;
  Ok (st1, this).

(** DestroyEntity: the framework runs [beforeDestroy] and then tears the
    watchers of the instance down. *)
Definition DestroyEntity (st : State) (this : ref) : State :=
  set_watcher (beforeDestroy st this) this None.

(** RenameEntity: the assignment [this.id = newId], and the tick that
    follows it, at which the watcher runs. *)
Definition RenameEntity (st : State) (this : ref) (newId : string) : State :=
  flush (set_id st this newId).

(** One creation after another, stopping at the first that throws. *)
Fixpoint create_all (st : State) (os : list ElectronicCore) : result State :=
  match os with
  | [] => Ok st
  | o :: os' => '(st', _) ← CreateEntity st o; create_all st' os'
  end.

(** A call of the lifecycle interface.  [exec] gives the state that is
    observed after the call and the tick that follows it, whether the
    call returned or threw: every call is followed by a tick before the
    next one is made. *)
Inductive call : Type :=
  | Create (o : ElectronicCore)
  | Destroy (this : ref)
  | Rename (this : ref) (newId : string).

Definition exec (st : State) (c : call) : State :=
  match c with
  | Create o =>
      flush match CreateEntity st o with
            | Ok (st', _) => st'
            | _ => (new_component st o).1
            end
  | Destroy this => flush (DestroyEntity st this)
  | Rename this newId => RenameEntity st this newId
  end.

(** *** Vocabulary of the specification *)

(** The entities that are live, parts first, and their ids. *)
Definition live (st : State) : list ref :=
  PartComponents st ++ LineComponents st.

Definition live_ids (st : State) : list string :=
  omap (λ r, id <$> objects st !! r) (live st).

(** The state in which a successful [CreateEntity st o] ends, [newId]
    being the id it settled on. *)
Definition registered (st : State) (o : ElectronicCore) (newId : string) : State :=
  {| mapHash := markId (mapHash st) newId;
     PartComponents :=
       if is_line (type o) then PartComponents st
       else PartComponents st ++ [length (objects st)];
     LineComponents :=
       if is_line (type o) then LineComponents st ++ [length (objects st)]
       else LineComponents st;
     objects := objects st ++ [with_id newId o];
     watchers := watchers st ++ [Some (id o)] |}.

(** Lock-step, registry to table: every registered entity has its id
    marked. *)
Definition registered_marked (st : State) : Prop :=
  ∀ r, r ∈ live st →
    ∃ o, objects st !! r = Some o ∧ hasId (mapHash st) (id o) = true.

(** The same, and every registered entity sits in the registry of its
    kind. *)
Definition registered_in_kind (st : State) : Prop :=
  ∀ r, r ∈ live st →
    ∃ o, objects st !! r = Some o ∧ hasId (mapHash st) (id o) = true ∧
         (r ∈ PartComponents st → is_line (type o) = false) ∧
         (r ∈ LineComponents st → is_line (type o) = true).

(** No live entity carries the id [X]. *)
Definition carried_by_none (st : State) (X : string) : Prop :=
  ∀ r, r ∈ live st → ∃ o, objects st !! r = Some o ∧ id o ≠ X.

(** No two live entities carry the same id. *)
Definition distinct_ids (st : State) : Prop :=
  ∀ r1 r2 o1 o2, r1 ∈ live st → r2 ∈ live st →
    objects st !! r1 = Some o1 → objects st !! r2 = Some o2 →
    id o1 = id o2 → r1 = r2.

Definition consistent (st : State) : Prop :=
  NoDup (live st) ∧ registered_in_kind st ∧ distinct_ids st.

(** No assignment is waiting for the tick: every watcher that is still
    active has seen the id its instance carries. *)
Definition settled (st : State) : Prop :=
  ∀ r o value, objects st !! r = Some o →
    watchers st !! r = Some (Some value) → value = id o.

(** Settled, one watcher for every instance, that of every live entity
    active, the empty string not marked, and no live entity under a name
    that objects inherit. *)
Definition calm (st : State) : Prop :=
  settled st ∧
  length (watchers st) = length (objects st) ∧
  (∀ r, r ∈ live st → ∃ value, watchers st !! r = Some (Some value)) ∧
  hasId (mapHash st) EmptyString = false ∧
  (∀ r o, r ∈ live st → objects st !! r = Some o → inherited (id o) = false).

(** Calls that respect the life cycle and bring only ids that are free:
    a creation either asks for allocation (the empty string, which
    [created] takes for the absence of an id) or supplies an id that is
    not marked; destruction and renaming address a live entity; a
    renaming targets an id, hence a non-empty string, that is not
    marked. *)
Definition permitted (st : State) (c : call) : Prop :=
  match c with
  | Create o => id o = EmptyString ∨ hasId (mapHash st) (id o) = false
  | Destroy this => this ∈ live st
  | Rename this newId =>
      this ∈ live st ∧ newId ≠ EmptyString ∧ hasId (mapHash st) newId = false
  end.


(** The states observable after a sequence of calls, each followed by
    its tick and each satisfying [ok] in the state where it is made. *)
Inductive reachable_by (ok : State → call → Prop) : State → Prop :=
  | reachable_init : reachable_by ok init
  | reachable_step st c :
      reachable_by ok st → ok st c → reachable_by ok (exec st c).

Definition reachable : State → Prop := reachable_by permitted.

End Components.

(** [n] is the first sequence number whose candidate is not marked. *)
Definition first_free (m : gmap string bool) (pre : string) (n : N) : Prop :=
  (1 ≤ n)%N ∧ hasId m (candidate pre n) = false ∧
  ∀ j, (1 ≤ j < n)%N → hasId m (candidate pre j) = true.

(** Of the candidates of [pre], exactly the first [k] are marked. *)
Definition filled (pre : string) (k : N) (m : gmap string bool) : Prop :=
  ∀ j, hasId m (candidate pre j) = true ↔ (1 ≤ j ≤ k)%N.

(** The identifier format [<letters>_<alphanumeric>], the whole string. *)
Definition exact_form (s : string) : Prop := Pattern.token_here s = Some s.

(** The last character of a string. *)
Fixpoint last_char (s : string) : option ascii :=
  match s with
  | EmptyString => None
  | String c EmptyString => Some c
  | String _ s' => last_char s'
  end.

End Common.

(** ** [lib/number.ts] *)

Module Number.

(** *** Strings

    [numberMatcher] names the letter mu, which is one UTF-16 code unit and
    no ASCII character, and [numberParser] takes a string apart by
    position.  Strings are therefore lists of code units here; [js]
    embeds an ASCII literal. *)

Abbreviation jsstring := (list N) (only parsing).

Definition js (s : string) : jsstring :=
  N_of_ascii <$> list_ascii_of_string s.

Definition ch (c : ascii) : N := N_of_ascii c.

(** The letter mu, U+03BC. *)
Definition mu : N := 956.

(** [\d] *)
Definition is_digit (c : N) : bool := ((48 <=? c) && (c <=? 57))%N.

(** [[eE]] *)
Definition is_eE (c : N) : bool := ((c =? ch "e") || (c =? ch "E"))%N.

(** [[puμnmkMG]] *)
Definition is_unit (c : N) : bool :=
  existsb (N.eqb c)
    [ch "p"; ch "u"; mu; ch "n"; ch "m"; ch "k"; ch "M"; ch "G"].

(** A greedy [[...]*]: the longest prefix in the class, and the rest. *)
Fixpoint span (p : N → bool) (s : jsstring) : jsstring * jsstring :=
  match s with
  | [] => ([], [])
  | c :: s' =>
      if p c then let '(a, b) := span p s' in (c :: a, b) else ([], s)
  end.

Definition nonempty (s : jsstring) : bool :=
  match s with [] => false | _ :: _ => true end.

(** [^\d+(?:\.\d+)?] at the start of [s]: what follows the match, [None]
    when there is no leading digit.  The repetitions are greedy, and a
    shorter match cannot help any of the three continuations: it would
    leave a digit, or a dot, in front of them. *)
Definition mantissa (s : jsstring) : option jsstring :=
  let '(int, rest) := span is_digit s in
  if nonempty int then
    match rest with
    | c :: rest' =>
        if (c =? ch ".")%N then
          let '(frac, rest'') := span is_digit rest' in
          if nonempty frac then Some rest'' else Some rest
        else Some rest
    | [] => Some rest
    end
  else None.

(** [-?\d+$] *)
Definition exponent (s : jsstring) : bool :=
  let ds := match s with
            | c :: s' => if (c =? ch "-")%N then s' else s
            | [] => s
            end in
  nonempty ds && forallb is_digit ds.

(** The three alternatives of [numberMatcher]. *)
Definition plain (s : jsstring) : bool :=
  match mantissa s with
  | Some [] => true
  | _ => false
  end.

Definition scientific (s : jsstring) : bool :=
  match mantissa s with
  | Some (c :: rest) => is_eE c && exponent rest
  | _ => false
  end.

Definition suffixed (s : jsstring) : bool :=
  match mantissa s with
  | Some [c] => is_unit c
  | _ => false
  end.

(** [numberMatcher.test(notation)] *)
Definition numberMatcher (notation : jsstring) : bool :=
  plain notation || scientific notation || suffixed notation.

(** [notation.split(/[eE]/)] *)
Fixpoint split_eE (s : jsstring) : list jsstring :=
  match s with
  | [] => [[]]
  | c :: s' =>
      if is_eE c then [] :: split_eE s'
      else match split_eE s' with
           | piece :: pieces => (c :: piece) :: pieces
           | [] => [[c]]
           end
  end.

(** The object literal [exp] of [numberParser], read at a key. *)
Definition exp (key : N) : option Z :=
  if (key =? ch "p")%N then Some (-12)%Z
  else if (key =? ch "u")%N then Some (-9)%Z
  else if (key =? mu)%N then Some (-9)%Z
  else if (key =? ch "n")%N then Some (-6)%Z
  else if (key =? ch "m")%N then Some (-3)%Z
  else if (key =? ch "k")%N then Some 3%Z
  else if (key =? ch "M")%N then Some 6%Z
  else if (key =? ch "G")%N then Some 9%Z
  else None.

(** [ToIntegerOrInfinity] of the language specification. *)
Inductive ext_int : Type :=
  | Int (z : Z)
  | PosInf
  | NegInf.

(** *** The numbers of the host

    The arithmetic of the source is that of the JavaScript runtime, on
    IEEE-754 doubles.  The two functions are written against the
    operations they call; [Math.floor(Math.log10(x))] and
    [String(Math.round(x))] are each taken as one operation, and so is
    raising 10 to a power, the only use the source makes of [Math.pow]
    and [**]. *)
Class Host : Type := {
  number : Type;
  NaN : number;
  (** an integer literal *)
  lit : Z → number;
  (** [Number(s)] *)
  Number_ : jsstring → number;
  (** [Number.parseFloat(s)] *)
  parseFloat : jsstring → number;
  (** [Number.isNaN(x)] *)
  isNaN : number → bool;
  (** [x + y], [x - y], [x * y], [x / y] *)
  plus : number → number → number;
  minus : number → number → number;
  times : number → number → number;
  divide : number → number → number;
  (** [-x] *)
  negate : number → number;
  (** [x < y] and [x <= y] *)
  less : number → number → bool;
  less_eq : number → number → bool;
  (** [Math.abs(x)] *)
  Math_abs : number → number;
  (** [Math.pow(10, x)], [10 ** x] *)
  pow10 : number → number;
  (** [Math.floor(Math.log10(x))] *)
  floor_log10 : number → number;
  (** [String(Math.round(x))] *)
  round_String : number → jsstring;
  ToIntegerOrInfinity : number → ext_int;
}.

Section Code.
Context `{Host}.

(** [exp[key]] where a number is expected: a missing key reads
    [undefined], which converts to [NaN]. *)
Definition exp_number (key : option N) : number :=
  match key ≫= exp with
  | Some power => lit power
  | None => NaN
  end.

(** [Number(x)] for an element of a destructured array, [undefined]
    (converted to [NaN]) when the array is too short. *)
Definition Number_element (x : option jsstring) : number :=
  match x with
  | Some s => Number_ s
  | None => NaN
  end.

Definition numberParser (notation : jsstring) : number :=
  if negb (numberMatcher notation) then NaN
  else if existsb is_eE notation then
    let pieces := split_eE notation in
    let base := pieces !! 0 in
    let power := pieces !! 1 in
    times (Number_element base) (pow10 (Number_element power))
  else if match last notation with Some c => is_unit c | None => false end then
    let power := exp_number (last notation) in
    let base := take (length notation - 1) notation in
    times (Number_ base) (pow10 power)
  else Number_ notation.

(** [rank] *)
Definition rank (value : number) : result number :=
  if isNaN value then Throw (Error "(number) cannot run .rank() on NaN")
  else Ok (floor_log10 value).

(** [s.repeat(count)] *)
Definition String_repeat (s : jsstring) (count : number) : result jsstring :=
  match ToIntegerOrInfinity count with
  | Int z => if (z <? 0)%Z then Throw RangeError
             else Ok (mjoin (replicate (Z.to_nat z) s))
  | PosInf | NegInf => Throw RangeError
  end.

(** The position that [slice] makes of an argument, in a string of
    length [len]. *)
Definition slice_index (len : nat) (i : ext_int) : nat :=
  match i with
  | NegInf => 0
  | Int z => if (z <? 0)%Z then Z.to_nat (Z.max (Z.of_nat len + z) 0)
             else Nat.min (Z.to_nat z) len
  | PosInf => len
  end.

(** [s.slice(start, end)]; [None] for an argument that is left out. *)
Definition String_slice (s : jsstring) (start : number) (end_ : option number)
    : jsstring :=
  let len := length s in
  let from := slice_index len (ToIntegerOrInfinity start) in
  let to := match end_ with
            | Some e => slice_index len (ToIntegerOrInfinity e)
            | None => len
            end in
  take (to - from) (drop from s).

(** [toRound(origin, bits)]; [None] for [bits] left out, which then is
    6.  The number of digits is an integer. *)
Definition toRound (origin : number) (bits_arg : option Z) : result number :=
  let bits := lit (default 6%Z bits_arg) in
  if isNaN origin then Throw (Error "(number) cannot run .toRound() on NaN")
  else
    let value := Math_abs origin in
    let toInt := plus (minus (floor_log10 value) bits) (lit 1) in
    let transform := pow10 toInt in
    let round := round_String (divide value transform) in
    let sign := if less origin (lit 0) then js "-" else js EmptyString in
    str ← (if less (lit 0) toInt then
             zeros ← String_repeat (js "0") toInt;
             Ok (round ++ zeros)
           else if less_eq bits (negate toInt) then
             zeros ← String_repeat (js "0") (minus (negate toInt) bits);
             Ok (js "0." ++ zeros ++ round)
           else
             Ok (String_slice round (lit 0) (Some toInt) ++ js "." ++
                 String_slice round toInt None));
    Ok (parseFloat (sign ++ str)).

End Code.

(** *** Integers among the numbers of the host

    What [toRound] needs of the arithmetic in order to place the decimal
    point.  Every integer from [-2^53] to [2^53] is a double; a sum or a
    difference of two of them that stays in this range is exact, their
    comparisons are those of the integers, and they convert to
    themselves where [repeat] and [slice] take a count or a position.
    The negation of zero is the negative zero, which compares and
    converts as zero; it is not the literal [0], and nothing is asked of
    [negate] by itself. *)
Definition safe (z : Z) : Prop := (- 2 ^ 53 ≤ z ≤ 2 ^ 53)%Z.

Class HostLaws (H : Host) : Prop := {
  law_plus a b :
    safe a → safe b → safe (a + b) → plus (lit a) (lit b) = lit (a + b);
  law_minus a b :
    safe a → safe b → safe (a - b) → minus (lit a) (lit b) = lit (a - b);
  law_less a b :
    safe a → safe b → less (lit a) (lit b) = (a <? b)%Z;
  law_less_eq_negate a b :
    safe a → safe b → less_eq (lit a) (negate (lit b)) = (a <=? - b)%Z;
  law_ToInteger a :
    safe a → ToIntegerOrInfinity (lit a) = Int a;
  law_ToInteger_negate_minus a b :
    safe a → safe b → safe (- a - b) →
    ToIntegerOrInfinity (minus (negate (lit a)) (lit b)) = Int (- a - b);
}.

(** *** The three shapes of the specification *)

Definition digits (d : jsstring) : Prop :=
  d ≠ [] ∧ forallb is_digit d = true.

(** [123], [1.5] *)
Definition decimal (s : jsstring) : Prop :=
  ∃ int, digits int ∧ (s = int ∨ ∃ frac, digits frac ∧ s = int ++ ch "." :: frac).

(** [1.5e-3], [2E9] *)
Definition scientific_shape (s : jsstring) : Prop :=
  ∃ m c e, decimal m ∧ is_eE c = true ∧ digits e ∧
           (s = m ++ c :: e ∨ s = m ++ c :: ch "-" :: e).

(** [1k], [2.2u], [3p] *)
Definition suffixed_shape (s : jsstring) : Prop :=
  ∃ m c, decimal m ∧ is_unit c = true ∧ s = m ++ [c].

(** The characters that may follow the mantissa of an accepted text. *)
Definition continues (c : N) : Prop := is_eE c = true ∨ is_unit c = true.

(** *** An exact interpretation of the host

    Numbers are the rationals, the two infinities and NaN; every
    operation returns the mathematical result, in lowest terms.  This is
    the arithmetic of the doubles with the rounding left out: no
    overflow, no underflow, no negative zero.  It is total on what the two
    functions compute from decimal numerals and an integer digit count;
    where the exact result is no rational (ten to a power that is no
    integer) it answers NaN. *)

Inductive erat : Type :=
  | ENaN
  | EInf (negative : bool)
  | EFin (q : Q).

Definition fin (q : Q) : erat := EFin (Qred q).

Definition Qsign_neg (q : Q) : bool := (Qnum q <? 0)%Z.
Definition Qis_zero (q : Q) : bool := (Qnum q =? 0)%Z.

Definition e_neg (x : erat) : erat :=
  match x with
  | ENaN => ENaN
  | EInf s => EInf (negb s)
  | EFin q => fin (- q)
  end.

Definition e_add (x y : erat) : erat :=
  match x, y with
  | ENaN, _ | _, ENaN => ENaN
  | EInf s, EInf t => if eqb s t then EInf s else ENaN
  | EInf s, EFin _ | EFin _, EInf s => EInf s
  | EFin a, EFin b => fin (a + b)
  end.

Definition e_mul (x y : erat) : erat :=
  match x, y with
  | ENaN, _ | _, ENaN => ENaN
  | EInf s, EInf t => EInf (xorb s t)
  | EInf s, EFin q | EFin q, EInf s =>
      if Qis_zero q then ENaN else EInf (xorb s (Qsign_neg q))
  | EFin a, EFin b => fin (a * b)
  end.

Definition e_div (x y : erat) : erat :=
  match x, y with
  | ENaN, _ | _, ENaN => ENaN
  | EInf _, EInf _ => ENaN
  | EInf s, EFin q => EInf (xorb s (Qsign_neg q))
  | EFin _, EInf _ => fin 0
  | EFin a, EFin b =>
      if Qis_zero b then (if Qis_zero a then ENaN else EInf (Qsign_neg a))
      else fin (a / b)
  end.

Definition e_lt (x y : erat) : bool :=
  match x, y with
  | ENaN, _ | _, ENaN => false
  | EInf s, EInf t => s && negb t
  | EInf s, EFin _ => s
  | EFin _, EInf t => negb t
  | EFin a, EFin b => negb (Qle_bool b a)
  end.

Definition e_le (x y : erat) : bool :=
  match x, y with
  | ENaN, _ | _, ENaN => false
  | EInf s, EInf t => s || negb t
  | EInf s, EFin _ => s
  | EFin _, EInf t => negb t
  | EFin a, EFin b => Qle_bool a b
  end.

Definition e_abs (x : erat) : erat :=
  match x with
  | ENaN => ENaN
  | EInf _ => EInf false
  | EFin q => fin (Qabs q)
  end.

(** Ten to an integer power, exactly.  The runtime overflows to infinity
    above [10^308] and underflows to zero below [10^-323]; the exact
    interpretation does neither. *)
Definition e_pow10 (x : erat) : erat :=
  match x with
  | ENaN => ENaN
  | EInf false => EInf false
  | EInf true => fin 0
  | EFin q =>
      let q' := Qred q in
      if (Qden q' =? 1)%positive then fin (Qpower 10 (Qnum q')) else ENaN
  end.

(** The number of decimal digits of a positive integer. *)
Fixpoint count_digits (fuel : nat) (n : Z) : Z :=
  match fuel with
  | O => 1
  | S fuel' => if (n <? 10)%Z then 1 else 1 + count_digits fuel' (n / 10)
  end.

Definition num_digits (p : positive) : Z :=
  count_digits (Pos.size_nat p) (Zpos p).

(** The integer [k] with [10^k <= n/d < 10^(k+1)]: it is the difference
    of the digit counts, or one less. *)
Definition floor_log10_Q (n d : positive) : Z :=
  let k := (num_digits n - num_digits d)%Z in
  if Qle_bool (Qpower 10 k) (Zpos n # d) then k else (k - 1)%Z.

(** [Math.floor(Math.log10(x))], exactly.  The runtime rounds the
    logarithm to a double before it takes the floor, and just below a
    power of ten it may answer with the next integer; the exact
    interpretation never does. *)
Definition e_floor_log10 (x : erat) : erat :=
  match x with
  | ENaN => ENaN
  | EInf false => EInf false
  | EInf true => ENaN
  | EFin q =>
      match Qnum q with
      | Z0 => EInf true
      | Zpos n => fin (inject_Z (floor_log10_Q n (Qden q)))
      | Zneg _ => ENaN
      end
  end.

(** Decimal digits of a natural number, most significant first. *)
Definition digits_of (n : N) : jsstring :=
  N_of_ascii <$> list_ascii_of_string (pretty n).

Definition String_Z (z : Z) : jsstring :=
  if (z <? 0)%Z then ch "-" :: digits_of (Z.to_N (- z)) else digits_of (Z.to_N z).

(** [Math.round] takes the integer nearest to its argument, the larger
    one at a tie; [String] writes an integer in positional notation.
    From [10^21] on the runtime writes a mantissa and an exponent; the
    exact interpretation keeps the positions, and agrees with the runtime
    below that only. *)
Definition e_round_String (x : erat) : jsstring :=
  match x with
  | ENaN => js "NaN"
  | EInf false => js "Infinity"
  | EInf true => js "-Infinity"
  | EFin q => String_Z (Qfloor (q + (1 # 2)))
  end.

Definition e_ToIntegerOrInfinity (x : erat) : ext_int :=
  match x with
  | ENaN => Int 0
  | EInf false => PosInf
  | EInf true => NegInf
  | EFin q => Int (Z.quot (Qnum q) (Zpos (Qden q)))
  end.

(** The value of a string of decimal digits. *)
Definition digits_value (d : jsstring) : Z :=
  foldl (λ acc c, (10 * acc + Z.of_N (c - 48))%Z) 0%Z d.

Definition starts_with (prefix s : jsstring) : bool :=
  bool_decide (take (length prefix) s = prefix).

(** The longest decimal literal at the start of [s], its value and what
    follows it: an optional sign, then [Infinity], or digits with an
    optional fraction and an optional exponent, at least one digit before
    the exponent. *)
Definition decimal_literal (s : jsstring) : option (erat * jsstring) :=
  let '(negative, body) :=
    match s with
    | c :: s' => if (c =? ch "-")%N then (true, s')
                 else if (c =? ch "+")%N then (false, s') else (false, s)
    | [] => (false, s)
    end in
  if starts_with (js "Infinity") body then
    Some (EInf negative, drop 8 body)
  else
    let '(int, rest) := span is_digit body in
    let '(frac, rest) :=
      match rest with
      | c :: rest' => if (c =? ch ".")%N then span is_digit rest' else ([], rest)
      | [] => ([], rest)
      end in
    if nonempty int || nonempty frac then
      let m := (inject_Z (digits_value (int ++ frac))
                / Qpower 10 (Z.of_nat (length frac)))%Q in
      let '(e, rest) :=
        match rest with
        | c :: rest' =>
            if is_eE c then
              let '(eneg, ds) :=
                match rest' with
                | c' :: r => if (c' =? ch "-")%N then (true, r)
                             else if (c' =? ch "+")%N then (false, r)
                             else (false, rest')
                | [] => (false, rest')
                end in
              let '(ed, rest'') := span is_digit ds in
              if nonempty ed
              then ((if eneg then - digits_value ed else digits_value ed)%Z, rest'')
              else (0%Z, rest)
            else (0%Z, rest)
        | [] => (0%Z, rest)
        end in
      let v := (m * Qpower 10 e)%Q in
      Some (fin (if negative then - v else v), rest)
    else None.

(** [Number(s)] on the empty string and on decimal literals; the runtime
    also accepts surrounding white space and the prefixes [0x], [0o] and
    [0b], which [numberParser] never passes on. *)
Definition e_Number (s : jsstring) : erat :=
  match s with
  | [] => fin 0
  | _ =>
      match decimal_literal s with
      | Some (v, []) => v
      | _ => ENaN
      end
  end.

(** [Number.parseFloat(s)], for a string without leading white space. *)
Definition e_parseFloat (s : jsstring) : erat :=
  match decimal_literal s with
  | Some (v, _) => v
  | None => ENaN
  end.

#[export] Instance exact_host : Host := {|
  number := erat;
  NaN := ENaN;
  lit z := fin (inject_Z z);
  Number_ := e_Number;
  parseFloat := e_parseFloat;
  isNaN x := match x with ENaN => true | _ => false end;
  plus := e_add;
  minus x y := e_add x (e_neg y);
  times := e_mul;
  divide := e_div;
  negate := e_neg;
  less := e_lt;
  less_eq := e_le;
  Math_abs := e_abs;
  pow10 := e_pow10;
  floor_log10 := e_floor_log10;
  round_String := e_round_String;
  ToIntegerOrInfinity := e_ToIntegerOrInfinity;
|}.

(** A decimal numeral as a number of the exact interpretation. *)
Definition dec (mantissa : Z) (exponent : Z) : erat :=
  fin (inject_Z mantissa * Qpower 10 exponent).

(** *** [createSelectList] *)

(** The type [NumberRank]: the eight unit letters and the empty unit. *)
Inductive NumberRank : Type :=
  | rank_G | rank_M | rank_k | rank_none | rank_m | rank_mu | rank_u
  | rank_n | rank_p.

#[export] Instance NumberRank_eq_dec : EqDecision NumberRank.
Proof. solve_decision. Defined.

(** The string that a [NumberRank] is. *)
Definition rank_string (unit : NumberRank) : jsstring :=
  match unit with
  | rank_G => js "G"
  | rank_M => js "M"
  | rank_k => js "k"
  | rank_none => js EmptyString
  | rank_m => js "m"
  | rank_mu => [mu]
  | rank_u => js "u"
  | rank_n => js "n"
  | rank_p => js "p"
  end.

(** The object literal [unitMap], read at a key; it has no entry for the
    letter mu. *)
Definition unitMap (unit : NumberRank) : option jsstring :=
  match unit with
  | rank_p => Some [30382%N]
  | rank_n => Some [32435%N]
  | rank_u => Some [24494%N]
  | rank_m => Some [27627%N]
  | rank_none => Some []
  | rank_k => Some [21315%N]
  | rank_M => Some [20806%N]
  | rank_G => Some [21513%N]
  | rank_mu => None
  end.

(** A value in a template literal: a missing entry reads [undefined]. *)
Definition template (x : option jsstring) : jsstring :=
  match x with
  | Some s => s
  | None => js "undefined"
  end.

(** An element of a [SelectList]. *)
Record SelectOption : Type := { label : jsstring; value : NumberRank }.

(** The two call signatures of [createSelectList]; [None] for
    [isChinese] left out. *)
Inductive SelectArguments : Type :=
  | OfLabel (label : jsstring) (isChinese : option bool)
  | OfUnits (units : list NumberRank) (label : jsstring) (isChinese : option bool).

(** [createSelectList].  With the first signature the first argument is a
    string, no array for [isArray], and the second argument is the flag,
    which [Boolean] makes [false] when it is left out. *)
Definition createSelectList (args : SelectArguments) : list SelectOption :=
  let '(units, label, isChinese) :=
    match args with
    | OfLabel units label =>
        (** then [units] is the label and [label] the flag *)
        let isChinese := default false label in
        let label := units in
        let units := [rank_G; rank_M; rank_k; rank_none; rank_m; rank_u;
                      rank_n; rank_p] in
        (units, label, isChinese)
    | OfUnits units label isChinese => (units, label, default false isChinese)
    end in
  let unitFilted :=
    (λ unit, if decide (unit = rank_mu) then rank_u else unit) <$> units in
  (λ unit,
     {| label := if isChinese : bool then template (unitMap unit) ++ label
                 else rank_string unit ++ label;
        value := unit |}) <$> unitFilted.

(** *** [splitNumber] *)

(** [[\d.]] *)
Definition is_digit_or_dot (c : N) : bool := is_digit c || (c =? ch ".")%N.

(** [[GMkmunp]] *)
Definition is_rank (c : N) : bool :=
  existsb (N.eqb c) [ch "G"; ch "M"; ch "k"; ch "m"; ch "u"; ch "n"; ch "p"].

(** [/^([\d.]+)([GMkmunp]?)$/.exec(str)]: the two groups, [None] for
    [null].  The first group is greedy, and giving back a character of it
    cannot help: that character is no unit letter and not the end. *)
Definition matcher_exec (str : jsstring) : option (jsstring * jsstring) :=
  let '(group1, rest) := span is_digit_or_dot str in
  if nonempty group1 then
    match rest with
    | [] => Some (group1, [])
    | [c] => if is_rank c then Some (group1, [c]) else None
    | _ => None
    end
  else None.

(** The object that [splitNumber] returns. *)
Record SplitNumber : Type := { number_of : jsstring; rank_of : jsstring }.

(** What [splitNumber] does: it returns, or throws an [Error] whose
    message is made of the text. *)
Inductive split_outcome : Type :=
  | Returns (r : SplitNumber)
  | ThrowsError (message : jsstring).

Definition splitNumber (str : jsstring) : split_outcome :=
  match matcher_exec str with
  | None => ThrowsError (js "Number Error: " ++ str)
  | Some (group1, group2) =>
      Returns {| number_of := group1;
                 rank_of := if nonempty group2 then group2 else js EmptyString |}
  end.

End Number.

(** ** A sample catalog, for examples *)

Module Sample.
Import Common.

Inductive PartType : Type := resistance | capacitor.

Definition Electronics_pre (t : PartType) : string :=
  match t with
  | resistance => "R"
  | capacitor => "C"
  end.

Definition part (t : PartType) (i : string) : ElectronicCore :=
  {| id := i; connect := []; type := Part t;
     el := {| node := 0; dom_id := EmptyString |} |}.

Definition wire (i : string) : @ElectronicCore PartType :=
  {| id := i; connect := []; type := Line;
     el := {| node := 0; dom_id := EmptyString |} |}.

Definition run (cs : list call) : State :=
  foldl (exec Electronics_pre) init cs.

(** A resistance and a wire that the allocator names, a second wire that
    brings its own id, a renaming, a destruction. *)
Definition session : list call :=
  [Create (part resistance EmptyString); Create (wire EmptyString); Create (wire "w_7");
   Rename 0 "R_9"; Create (part resistance EmptyString); Destroy 1].

(** One resistance, then one wire, both named by the allocator. *)
Definition one_part : list call := [Create (part resistance EmptyString)].

Definition part_and_wire : list call :=
  [Create (part resistance EmptyString); Create (wire EmptyString)].



End Sample.

(** * Properties *)

(** ** The table of used identifiers *)

Section MapHash.
Import Common.
Implicit Types (m : gmap string bool) (a b : string).

Lemma hasId_markId_eq m a : hasId (markId m a) a = true.
Proof.
  unfold hasId, read, markId. destruct (decide (a = "__proto__")) as [->|].
  - apply orb_true_r.
  - by rewrite lookup_insert_eq.
Qed.

Lemma hasId_markId_ne m a b : a ≠ b → hasId (markId m a) b = hasId m b.
Proof.
  intros. unfold hasId, read, markId. destruct (decide (a = "__proto__")); [done|].
  by rewrite lookup_insert_ne.
Qed.

(** After [deleteId] an id reads as marked exactly if it is inherited. *)
Lemma hasId_deleteId_eq m a : hasId (deleteId m a).1 a = inherited a.
Proof.
  unfold hasId, deleteId, read.
  destruct (truthy (m !! a) || inherited a) eqn:E; simpl.
  - by rewrite lookup_delete_eq.
  - by apply orb_false_iff in E as [-> ->].
Qed.

Lemma hasId_deleteId_ne m a b : a ≠ b → hasId (deleteId m a).1 b = hasId m b.
Proof.
  intros. unfold hasId, deleteId, read.
  destruct (truthy (m !! a) || inherited a); simpl; [|done].
  by rewrite lookup_delete_ne.
Qed.

Lemma hasId_false m a : hasId m a = false → m !! a ≠ Some true ∧ inherited a = false.
Proof.
  unfold hasId, read. intros [E ?]%orb_false_iff. split; [|done].
  intros E'. by rewrite E' in E.
Qed.

Lemma hasId_own m a : hasId m a = true → inherited a = false → m !! a = Some true.
Proof.
  unfold hasId, read, truthy. intros E Hi. rewrite Hi, orb_false_r in E.
  by destruct (m !! a) as [[]|].
Qed.

Lemma hasId_dom m a : hasId m a = true → inherited a = false → a ∈ dom m.
Proof. intros E Hi. apply elem_of_dom. rewrite (hasId_own m a E Hi). eauto. Qed.

(** [deleteId] reports whether the id was marked. *)
Lemma deleteId_returns m a : (deleteId m a).2 = hasId m a.
Proof. unfold deleteId, hasId. by destruct (read m a). Qed.

(** Marking an id of its own that is marked changes nothing. *)
Lemma markId_marked m a : hasId m a = true → inherited a = false → markId m a = m.
Proof.
  intros E Hi. unfold markId. destruct (decide _); [done|].
  apply insert_id. by apply hasId_own.
Qed.

Lemma deleteId_unmarked m a : hasId m a = false → deleteId m a = (m, false).
Proof. unfold hasId, deleteId. by intros ->. Qed.

End MapHash.

(** ** Allocated ids have the identifier format *)

Section IdFormat.
Import Common Pattern.

Lemma span_all p a b :
  all_chars p a = true →
  match b with String c _ => p c = false | EmptyString => True end →
  span p (a +:+ b) = (a, b).
Proof.
  intros Ha Hb. induction a as [|c a IH]; simpl.
  - destruct b as [|c b]; [done|]. simpl. by rewrite Hb.
  - simpl in Ha. apply andb_true_iff in Ha as [-> Ha]. by rewrite IH.
Qed.

Lemma span_whole p a : all_chars p a = true → span p a = (a, EmptyString).
Proof.
  intros Ha. induction a as [|c a IH]; simpl; [done|].
  simpl in Ha. apply andb_true_iff in Ha as [-> Ha]. by rewrite IH.
Qed.

Lemma pretty_N_char_alnum x : is_alnum (pretty_N_char x) = true.
Proof. unfold pretty_N_char. by repeat case_match. Qed.

Lemma pretty_N_go_alnum x : ∀ s,
  all_chars is_alnum s = true → all_chars is_alnum (pretty_N_go x s) = true.
Proof.
  induction (N.lt_wf_0 x) as [x _ IH]; intros s Hs.
  destruct (decide (x = 0%N)) as [->|Hx]; [by rewrite pretty_N_go_0|].
  rewrite pretty_N_go_step by lia. apply IH.
  - apply N.div_lt; lia.
  - simpl. by rewrite pretty_N_char_alnum.
Qed.

Lemma pretty_N_go_nonempty x : ∀ s,
  nonempty s = true → nonempty (pretty_N_go x s) = true.
Proof.
  induction (N.lt_wf_0 x) as [x _ IH]; intros s Hs.
  destruct (decide (x = 0%N)) as [->|Hx]; [by rewrite pretty_N_go_0|].
  rewrite pretty_N_go_step by lia. apply IH; [apply N.div_lt; lia|done].
Qed.

Lemma pretty_N_digits (n : N) :
  all_chars is_alnum (pretty n) = true ∧ nonempty (pretty n) = true.
Proof.
  unfold pretty, pretty_N. destruct (decide (n = 0%N)) as [->|Hn]; [done|].
  split; [by apply pretty_N_go_alnum|].
  rewrite pretty_N_go_step by lia. by apply pretty_N_go_nonempty.
Qed.

(** A candidate of a prefix made of letters is an identifier, whole. *)
Lemma candidate_exact_form pre n :
  nonempty pre = true → all_chars is_letter pre = true →
  exact_form (candidate pre n).
Proof.
  intros Hne Hpre. destruct (pretty_N_digits n) as [Hd Hdne].
  unfold exact_form, token_here, candidate.
  rewrite (span_all is_letter pre ("_" +:+ pretty n) Hpre) by done.
  rewrite Hne. simpl. change (EmptyString +:+ pretty n) with (pretty n).
  rewrite (span_whole is_alnum (pretty n) Hd).
  by rewrite Hdne.
Qed.

End IdFormat.

(** ** Allocation *)

Section CreateId.
Import Common.
Implicit Types (m : gmap string bool) (pre : string) (i j n : N).

Lemma last_char_app (s s' : string) :
  s' ≠ EmptyString → last_char (s +:+ s') = last_char s'.
Proof.
  intros Hne. induction s as [|c s IH]; [done|].
  change (String c s +:+ s') with (String c (s +:+ s')).
  destruct (s +:+ s') as [|c' r] eqn:E; [|done].
  destruct s; [by subst|done].
Qed.

Lemma pretty_N_go_last (x : N) : ∀ s,
  s ≠ EmptyString → last_char (pretty_N_go x s) = last_char s.
Proof.
  induction (N.lt_wf_0 x) as [x _ IH]; intros s Hs.
  destruct (decide (x = 0%N)) as [->|Hx]; [by rewrite pretty_N_go_0|].
  rewrite pretty_N_go_step by lia.
  rewrite IH; [|apply N.div_lt; lia|done]. by destruct s.
Qed.

Lemma pretty_N_char_digit (x : N) :
  Pattern.is_letter (pretty_N_char x) = false ∧
  Pattern.is_underscore (pretty_N_char x) = false.
Proof. unfold pretty_N_char. by repeat case_match. Qed.

(** A candidate ends in a digit. *)
Lemma candidate_last pre i :
  ∃ c, last_char (candidate pre i) = Some c ∧
       Pattern.is_letter c = false ∧ Pattern.is_underscore c = false.
Proof.
  unfold candidate.
  assert (Hne : pretty i ≠ EmptyString).
  { intros E. pose proof (pretty_N_digits i) as [_ H]. by rewrite E in H. }
  rewrite last_char_app.
  2:{ intros E. by destruct (pretty i). }
  change ("_" +:+ pretty i) with (String "_" (pretty i)).
  assert (last_char (String "_" (pretty i)) = last_char (pretty i)) as ->
    by by destruct (pretty i).
  unfold pretty, pretty_N. destruct (decide (i = 0%N)) as [->|Hi].
  - by exists "0"%char.
  - rewrite pretty_N_go_step by lia. rewrite pretty_N_go_last by done.
    eexists. split; [done|]. apply pretty_N_char_digit.
Qed.

(** The names that objects inherit end in a letter or an underscore. *)
Lemma inherited_last k :
  inherited k = true →
  ∃ c, last_char k = Some c ∧
       Pattern.is_letter c || Pattern.is_underscore c = true.
Proof.
  unfold inherited, Object_prototype. rewrite bool_decide_eq_true.
  intros H. set_unfold in H.
  repeat (destruct H as [->|H]; [by eexists|]). done.
Qed.

(** No candidate is an inherited name. *)
Lemma candidate_not_inherited pre i : inherited (candidate pre i) = false.
Proof.
  apply not_true_iff_false. intros (c & Hc & Hl)%inherited_last.
  destruct (candidate_last pre i) as (c' & Hc' & H1 & H2).
  assert (c' = c) as -> by congruence. by rewrite H1, H2 in Hl.
Qed.

Lemma candidate_inj pre i j : candidate pre i = candidate pre j → i = j.
Proof.
  unfold candidate. intros E.
  apply (inj (String.app pre)) in E.
  apply (inj (String.app "_")) in E.
  by apply (inj pretty) in E.
Qed.

(** Candidates that are all marked are at most as many as the keys of the
    table. *)
Lemma used_candidates_bounded m pre (k : nat) :
  (∀ j, (1 ≤ j ≤ N.of_nat k)%N → hasId m (candidate pre j) = true) →
  k ≤ size m.
Proof.
  intros Hused.
  set (l := (λ x : nat, candidate pre (N.of_nat x)) <$> seq 1 k).
  assert (Hnd : NoDup l).
  { apply NoDup_fmap_2; [|apply NoDup_seq].
    intros x y E. apply candidate_inj in E. lia. }
  assert (Hsub : l ⊆+ elements (dom m)).
  { apply NoDup_submseteq; [done|].
    intros x [y [-> Hy]]%list_elem_of_fmap. apply elem_of_seq in Hy.
    apply elem_of_elements, hasId_dom; [apply Hused; lia|].
    apply candidate_not_inherited. }
  apply submseteq_length in Hsub.
  unfold l in Hsub. rewrite length_fmap, length_seq in Hsub.
  rewrite <- size_dom. exact Hsub.
Qed.

(** What the loop returns when entered at [i] with every smaller
    candidate marked, and that the fuel of [createId] is enough. *)
Lemma createId_loop_spec m pre max fuel i :
  (1 ≤ i)%N →
  (∀ j, (1 ≤ j < i)%N → hasId m (candidate pre j) = true) →
  size m < fuel + N.to_nat (i - 1) →
  match createId_loop m pre max fuel i with
  | Ok ans =>
      ∃ n, (i ≤ n)%N ∧ le_max n max = true ∧ ans = candidate pre n ∧
           hasId m ans = false ∧
           ∀ j, (1 ≤ j < n)%N → hasId m (candidate pre j) = true
  | Throw e =>
      e = capacity_error ∧
      ∃ k, max = Some k ∧ ∀ j, (1 ≤ j ≤ k)%N → hasId m (candidate pre j) = true
  | OutOfFuel => False
  end.
Proof.
  revert i. induction fuel as [|fuel IH]; intros i Hi Hused Hfuel.
  - simpl. assert (N.to_nat (i - 1) ≤ size m); [|lia].
    apply (used_candidates_bounded m pre). intros j Hj. apply Hused. lia.
  - simpl. destruct (le_max i max) eqn:Hle.
    + destruct (read m (candidate pre i)) eqn:Hi'; simpl.
      * assert (Hnext : ∀ j, (1 ≤ j < i + 1)%N → hasId m (candidate pre j) = true).
        { intros j Hj. destruct (decide (j = i)) as [->|]; [done|].
          apply Hused. lia. }
        specialize (IH (i + 1)%N ltac:(lia) Hnext ltac:(lia)).
        destruct (createId_loop m pre max fuel (i + 1)) as [ans|e|]; [|done..].
        destruct IH as (n & ? & ?). exists n. split; [lia|done].
      * exists i. split; [lia|]. by repeat split.
    + split; [done|]. destruct max as [k|]; [|done].
      exists k. split; [done|]. simpl in Hle. apply N.leb_gt in Hle.
      intros j Hj. apply Hused. lia.
Qed.

Lemma first_free_unique m pre n n' :
  first_free m pre n → first_free m pre n' → n = n'.
Proof.
  intros (? & Hn & Hlt) (? & Hn' & Hlt').
  destruct (N.lt_trichotomy n n') as [?|[?|?]]; [|done|].
  - rewrite Hlt' in Hn; [done|lia].
  - rewrite Hlt in Hn'; [done|lia].
Qed.

(** The three outcomes of [createId] on an argument the pattern accepts. *)
Lemma createId_cases m id pre :
  Pattern.match_prefix id = Some pre →
  match createId m id with
  | Ok ans =>
      ∃ n, first_free m pre n ∧ (pre = "line" ∨ (n ≤ 50)%N) ∧
           ans = candidate pre n
  | Throw e =>
      e = capacity_error ∧ pre ≠ "line" ∧
      ∀ j, (1 ≤ j ≤ 50)%N → hasId m (candidate pre j) = true
  | OutOfFuel => False
  end.
Proof.
  intros Hpre. unfold createId. rewrite Hpre.
  set (max := if decide (pre = "line") then None else Some maxNumber).
  pose proof (createId_loop_spec m pre max (createId_fuel m) 1) as H.
  specialize (H ltac:(lia) ltac:(intros; lia) ltac:(unfold createId_fuel; lia)).
  destruct (createId_loop m pre max (createId_fuel m) 1) as [ans|e|]; [| |done].
  - destruct H as (n & Hn & Hle & -> & Hfree & Hused).
    exists n. split; [by repeat split|]. split; [|done].
    unfold max in Hle. destruct (decide (pre = "line")); [by left|right].
    simpl in Hle. by apply N.leb_le in Hle.
  - destruct H as (-> & k & Hk & Hused). split; [done|].
    unfold max in Hk. destruct (decide (pre = "line")); [done|].
    injection Hk as <-. done.
Qed.

End CreateId.

(** ** Creation *)

Section Creation.
Import Common.
Context {PartType : Type} (Electronics_pre : PartType → string).
#[local] Abbreviation State := (@State PartType).
#[local] Abbreviation ElectronicCore := (@ElectronicCore PartType).
#[local] Abbreviation CreateEntity := (CreateEntity Electronics_pre).
#[local] Abbreviation create_all := (create_all Electronics_pre).
#[local] Abbreviation type_prefix := (type_prefix Electronics_pre).
Implicit Types (st : State) (o : ElectronicCore) (m : gmap string bool).

Lemma nonempty_false s : Pattern.nonempty s = false ↔ s = EmptyString.
Proof. by destruct s. Qed.

Lemma CreateEntity_unfold st o :
  CreateEntity st o =
    newId ← (if Pattern.nonempty (id o) then Ok (id o)
             else createId (mapHash st) (type_prefix (type o)));
    Ok (registered st o newId, length (objects st)).
Proof.
  unfold Common.CreateEntity, new_component, created. simpl.
  rewrite list_lookup_middle by done.
  destruct (if Pattern.nonempty (id o) then _ else _) as [newId| |]; simpl; [|done..].
  unfold registered. simpl.
  replace (alter (with_id newId) (length (objects st)) (objects st ++ [o]))
    with (objects st ++ [with_id newId o]).
  - by destruct (is_line (type o)).
  - rewrite alter_app_r_alt by done. by rewrite Nat.sub_diag.
Qed.

Lemma CreateEntity_blank st o :
  id o = EmptyString →
  CreateEntity st o =
    newId ← createId (mapHash st) (type_prefix (type o));
    Ok (registered st o newId, length (objects st)).
Proof. intros E. rewrite CreateEntity_unfold, E. done. Qed.

Lemma filled_empty pre : filled pre 0 ∅.
Proof.
  intros j. split; [|lia]. unfold hasId, read.
  rewrite lookup_empty, candidate_not_inherited. done.
Qed.

Lemma filled_markId pre k m :
  filled pre k m → filled pre (k + 1) (markId m (candidate pre (k + 1))).
Proof.
  intros Hf j. destruct (decide (j = k + 1)%N) as [->|Hne].
  - rewrite hasId_markId_eq. split; [lia|done].
  - rewrite hasId_markId_ne by (by intros ?%candidate_inj). rewrite (Hf j). lia.
Qed.

(** With exactly the first [k] candidates of a part prefix marked, the
    allocator returns candidate [k + 1] up to the fiftieth and throws
    afterwards. *)
Lemma createId_filled m id pre k :
  Pattern.match_prefix id = Some pre → pre ≠ "line" → filled pre k m →
  createId m id =
    if (k <? 50)%N then Ok (candidate pre (k + 1)) else Throw capacity_error.
Proof.
  intros Hpre Hline Hf. pose proof (createId_cases m id pre Hpre) as H.
  assert (Hk1 : hasId m (candidate pre (k + 1)) ≠ true).
  { rewrite (Hf _). lia. }
  destruct (createId m id) as [ans|e|]; [| |done].
  - destruct H as (n & (Hn & Hfree & Hused) & Hlim & ->).
    destruct Hlim as [?|Hlim]; [done|].
    assert (¬ (n ≤ k)%N).
    { intros ?. assert (hasId m (candidate pre n) = true); [|congruence].
      apply Hf. lia. }
    assert (¬ (k + 1 < n)%N).
    { intros ?. apply Hk1, Hused. lia. }
    assert (n = k + 1)%N as -> by lia.
    destruct (N.ltb_spec k 50); [done|lia].
  - destruct H as (-> & _ & Hused).
    destruct (N.ltb_spec k 50); [|done].
    exfalso. apply Hk1, Hused. lia.
Qed.

Lemma create_all_parts pre o (n : nat) : ∀ k st,
  id o = EmptyString → Pattern.match_prefix (type_prefix (type o)) = Some pre →
  pre ≠ "line" → filled pre k (mapHash st) → (k + N.of_nat n ≤ 50)%N →
  ∃ st', create_all st (replicate n o) = Ok st' ∧
         filled pre (k + N.of_nat n) (mapHash st').
Proof.
  induction n as [|n IH]; intros k st Hid Hpre Hline Hf Hk.
  - exists st. split; [done|]. by rewrite N.add_0_r.
  - simpl. rewrite (CreateEntity_blank _ _ Hid).
    rewrite (createId_filled _ _ pre k Hpre Hline Hf).
    destruct (N.ltb_spec k 50); [|lia]. simpl.
    destruct (IH (k + 1)%N (registered st o (candidate pre (k + 1))))
      as (st' & Hst' & Hf'); try done.
    + simpl. by apply filled_markId.
    + lia.
    + exists st'. split; [done|].
      by replace (k + N.of_nat (S n))%N with (k + 1 + N.of_nat n)%N by lia.
Qed.

Lemma match_prefix_line : Pattern.match_prefix "line" = Some "line".
Proof. reflexivity. Qed.

(** Creating a wire without an id never throws. *)
Lemma CreateEntity_wire st o :
  id o = EmptyString → type o = Line →
  ∃ n, first_free (mapHash st) "line" n ∧
       CreateEntity st o =
         Ok (registered st o (candidate "line" n), length (objects st)).
Proof.
  intros Hid Hty. rewrite (CreateEntity_blank _ _ Hid), Hty. simpl.
  pose proof (createId_cases (mapHash st) "line" "line" match_prefix_line) as H.
  destruct (createId (mapHash st) "line") as [ans|e|]; [| |done].
  - destruct H as (n & Hn & _ & ->). by exists n.
  - by destruct H as (_ & ? & _).
Qed.

Lemma create_all_wires o (n : nat) : ∀ st,
  id o = EmptyString → type o = Line →
  ∃ st', create_all st (replicate n o) = Ok st'.
Proof.
  induction n as [|n IH]; intros st Hid Hty; [by exists st|].
  simpl. destruct (CreateEntity_wire st o Hid Hty) as (k & _ & ->). simpl.
  by apply IH.
Qed.

(** C2.  [createId] scans the sequence numbers from 1 up to the limit,
    which is 50 for a part prefix and absent for ["line"], and returns
    the first candidate [<prefix>_<n>] that is not marked; it throws the
    capacity error exactly when every candidate within the limit is
    marked, and it does nothing else.  In particular, starting from the
    empty registry, the fiftieth creation of a part of one type succeeds
    and receives number 50, the fifty-first throws the capacity error,
    and any number of wires can be created from any state. *)
Theorem createId_first_free_within_limit m (arg pre : string) :
  Pattern.match_prefix arg = Some pre →
  let limit := if decide (pre = "line") then None else Some 50%N in
  (∀ ans, createId m arg = Ok ans ↔
          ∃ n, first_free m pre n ∧ le_max n limit = true ∧
               ans = candidate pre n) ∧
  (createId m arg = Throw capacity_error ↔
     ∀ n, (1 ≤ n)%N → le_max n limit = true →
          hasId m (candidate pre n) = true) ∧
  ((∃ ans, createId m arg = Ok ans) ∨ createId m arg = Throw capacity_error) ∧
  (∀ o, id o = EmptyString → type_prefix (type o) = arg → pre ≠ "line" →
     ∃ st49 st50 r,
       create_all init (replicate 49 o) = Ok st49 ∧
       CreateEntity st49 o = Ok (st50, r) ∧
       id <$> objects st50 !! r = Some (candidate pre 50) ∧
       CreateEntity st50 o = Throw capacity_error) ∧
  (∀ o st (k : nat), id o = EmptyString → type o = Line →
     ∃ st', create_all st (replicate k o) = Ok st').
Proof.
  intros Hpre limit.
  pose proof (createId_cases m arg pre Hpre) as Hcases.
  assert (Hlim : ∀ n, le_max n limit = true ↔ pre = "line" ∨ (n ≤ 50)%N).
  { intros n. unfold limit. destruct (decide (pre = "line")); simpl.
    - naive_solver.
    - rewrite N.leb_le. naive_solver. }
  split; [|split; [|split; [|split]]].
  - intros ans. split.
    + intros E. rewrite E in Hcases. destruct Hcases as (n & ? & ? & ->).
      exists n. by rewrite Hlim.
    + intros (n & Hn & Hle & ->). apply Hlim in Hle.
      destruct (createId m arg) as [ans|e|]; [| |done].
      * destruct Hcases as (n' & Hn' & _ & ->).
        by rewrite (first_free_unique _ _ _ _ Hn Hn').
      * destruct Hcases as (_ & Hline & Hused). destruct Hle as [?|?]; [done|].
        destruct Hn as (? & Hfree & _). rewrite Hused in Hfree; [done|lia].
  - split.
    + intros E. rewrite E in Hcases. destruct Hcases as (_ & Hline & Hused).
      intros n Hn [?|?]%Hlim; [done|]. apply Hused. lia.
    + intros Hall. destruct (createId m arg) as [ans|e|]; [| |done].
      * destruct Hcases as (n & (? & Hfree & _) & Hle & ->).
        apply Hlim in Hle. rewrite Hall in Hfree; done.
      * by destruct Hcases as (-> & _).
  - destruct (createId m arg) as [ans|e|]; [| |done].
    + left. by exists ans.
    + right. by destruct Hcases as (-> & _).
  - intros o Hid Harg Hline. subst arg.
    destruct (create_all_parts pre o 49 0 init) as (st49 & Hst49 & Hf49);
      [done..|apply filled_empty|lia|].
    exists st49, (registered st49 o (candidate pre 50)), (length (objects st49)).
    split; [done|].
    rewrite !(CreateEntity_blank _ _ Hid).
    rewrite (createId_filled _ _ pre 49 Hpre Hline Hf49). simpl.
    split; [done|]. split.
    { by rewrite list_lookup_middle. }
    rewrite (createId_filled _ _ pre 50 Hpre Hline); [done|].
    by apply (filled_markId pre 49).
  - intros o st k Hid Hty. by apply create_all_wires.
Qed.

End Creation.

(** ** Removal from a registry *)

Section ArrayDelete.
Import Common.
Context {A : Type}.
Implicit Types (p : A → bool) (l : list A).

Lemma array_delete_sublist p l : sublist (array_delete p l) l.
Proof.
  induction l as [|x l IH]; simpl; [done|].
  destruct (p x); [by apply sublist_cons | by apply sublist_skip].
Qed.

Lemma array_delete_none p l :
  (∀ x, x ∈ l → p x = false) → array_delete p l = l.
Proof.
  induction l as [|x l IH]; intros H; simpl; [done|].
  rewrite (H x) by apply list_elem_of_here.
  f_equal. apply IH. intros y Hy. apply H. by apply list_elem_of_further.
Qed.

(** When a single element satisfies the predicate, it is the one that
    goes. *)
Lemma array_delete_only p l r :
  NoDup l → r ∈ l → p r = true → (∀ x, x ∈ l → p x = true → x = r) →
  ∀ x, x ∈ array_delete p l ↔ x ∈ l ∧ x ≠ r.
Proof.
  induction l as [|y l IH]; intros Hnd Hr Hpr Honly x; [by inversion Hr|].
  apply NoDup_cons in Hnd as [Hy Hnd]. simpl.
  destruct (p y) eqn:Hpy.
  - assert (y = r) as -> by (apply Honly; [apply list_elem_of_here|done]).
    rewrite elem_of_cons. split; [|naive_solver].
    intros Hx. split; [by right|]. by intros ->.
  - assert (r ∈ l).
    { apply elem_of_cons in Hr as [->|?]; [congruence|done]. }
    rewrite !elem_of_cons, IH; [|done..|].
    + split; [|naive_solver]. intros [->|[? ?]]; [|naive_solver].
      split; [by left|]. by intros ->.
    + intros z Hz. apply Honly. by right.
Qed.


End ArrayDelete.


(** ** The registries stay consistent *)

Section Consistency.
Import Common.
Context {PartType : Type} (Electronics_pre : PartType → string).
#[local] Abbreviation State := (@State PartType).
#[local] Abbreviation ElectronicCore := (@ElectronicCore PartType).
#[local] Abbreviation call := (@call PartType).
#[local] Abbreviation CreateEntity := (CreateEntity Electronics_pre).
#[local] Abbreviation exec := (exec Electronics_pre).
#[local] Abbreviation reachable := (reachable Electronics_pre).
Implicit Types (st : State) (o : ElectronicCore) (r this : ref).

Lemma createId_Ok_free (m : gmap string bool) arg ans :
  createId m arg = Ok ans → hasId m ans = false.
Proof.
  intros E. destruct (Pattern.match_prefix arg) as [pre|] eqn:Hpre.
  - pose proof (createId_cases m arg pre Hpre) as H. rewrite E in H.
    by destruct H as (n & (_ & ? & _) & _ & ->).
  - unfold createId in E. by rewrite Hpre in E.
Qed.

Lemma registered_in_kind_marked st : registered_in_kind st → registered_marked st.
Proof.
  intros Hm r Hr. destruct (Hm r Hr) as (o & ? & ? & _). by exists o.
Qed.

Lemma live_valid st r :
  registered_in_kind st → r ∈ live st → r < length (objects st).
Proof.
  intros Hm Hr. destruct (Hm r Hr) as (o & Ho & _). by eapply lookup_lt_Some.
Qed.

Lemma consistent_init : consistent (@init PartType).
Proof.
  split; [constructor|]. split.
  - intros r Hr. by inversion Hr.
  - intros r1 r2 o1 o2 Hr. by inversion Hr.
Qed.

Lemma live_registered st o newId r :
  r ∈ live (registered st o newId) ↔ r ∈ live st ∨ r = length (objects st).
Proof.
  unfold live, registered. simpl.
  destruct (is_line (type o)); rewrite !elem_of_app, ?list_elem_of_singleton;
    naive_solver.
Qed.

Lemma lookup_registered_old st o newId r :
  r < length (objects st) →
  objects (registered st o newId) !! r = objects st !! r.
Proof. intros. simpl. by rewrite lookup_app_l. Qed.

Lemma lookup_registered_new st o newId :
  objects (registered st o newId) !! length (objects st) = Some (with_id newId o).
Proof. simpl. by rewrite list_lookup_middle. Qed.

Lemma consistent_registered st o newId :
  consistent st → hasId (mapHash st) newId = false →
  consistent (registered st o newId).
Proof.
  intros (Hnd & Hm & Hd) Hfree.
  assert (Hfresh : length (objects st) ∉ live st).
  { intros H%(live_valid _ _ Hm). lia. }
  split; [|split].
  - unfold live in *. simpl.
    destruct (is_line (type o)).
    + rewrite app_assoc. apply NoDup_app. split; [done|]. split; [|apply NoDup_singleton].
      intros x Hx ->%list_elem_of_singleton. done.
    + rewrite <- app_assoc. apply NoDup_app in Hnd as (HP & HPL & HL).
      apply NoDup_app. split; [done|]. split.
      * intros x Hx [->%list_elem_of_singleton|?]%elem_of_app; [|by eapply HPL].
        apply Hfresh. apply elem_of_app. by left.
      * apply NoDup_cons. split; [|done]. intros ?. apply Hfresh, elem_of_app. by right.
  - intros r [Hr| ->]%live_registered.
    + destruct (Hm r Hr) as (o' & Ho' & Hused & HP & HL).
      exists o'. rewrite lookup_registered_old by by eapply lookup_lt_Some.
      split; [done|]. split.
      { simpl. destruct (decide (newId = id o')) as [->|?];
          [apply hasId_markId_eq | by rewrite hasId_markId_ne]. }
      assert (r ≠ length (objects st)) by by intros ->.
      simpl. destruct (is_line (type o)); rewrite ?elem_of_app, ?list_elem_of_singleton;
        naive_solver.
    + exists (with_id newId o). rewrite lookup_registered_new.
      split; [done|]. split; [apply hasId_markId_eq|].
      simpl. destruct (is_line (type o)) eqn:E; split; try done.
      * intros ?. exfalso. apply Hfresh, elem_of_app. by left.
      * intros ?. exfalso. apply Hfresh, elem_of_app. by right.
  - assert (Hold : ∀ r o', r ∈ live st →
              objects (registered st o newId) !! r = Some o' →
              objects st !! r = Some o' ∧ id o' ≠ newId).
    { intros r o' Hr Ho'.
      rewrite lookup_registered_old in Ho' by by apply live_valid.
      split; [done|]. intros E.
      destruct (Hm r Hr) as (o'' & Ho'' & Hused & _). congruence. }
    intros r1 r2 o1 o2 [H1| ->]%live_registered [H2| ->]%live_registered Ho1 Ho2 E.
    + destruct (Hold _ _ H1 Ho1), (Hold _ _ H2 Ho2). by eapply Hd.
    + destruct (Hold _ _ H1 Ho1) as [_ Hne].
      rewrite lookup_registered_new in Ho2. injection Ho2 as <-. done.
    + destruct (Hold _ _ H2 Ho2) as [_ Hne].
      rewrite lookup_registered_new in Ho1. injection Ho1 as <-. by symmetry in E.
    + done.
Qed.

Lemma consistent_new_component st o :
  consistent st → consistent (new_component st o).1.
Proof.
  intros (Hnd & Hm & Hd). split; [done|]. split.
  - intros r Hr. destruct (Hm r Hr) as (o' & Ho' & ?). exists o'.
    split; [|done]. simpl. by apply lookup_app_l_Some.
  - intros r1 r2 o1 o2 H1 H2 Ho1 Ho2. simpl in Ho1, Ho2.
    rewrite lookup_app_l in Ho1 by by apply (live_valid st).
    rewrite lookup_app_l in Ho2 by by apply (live_valid st).
    by apply Hd.
Qed.

Lemma id_is_true st s r :
  id_is st s r = true ↔ ∃ o, objects st !! r = Some o ∧ id o = s.
Proof.
  unfold id_is. rewrite bool_decide_eq_true.
  destruct (objects st !! r) as [o|]; simpl; naive_solver.
Qed.

(** What [beforeDestroy] does to a consistent state. *)
Lemma beforeDestroy_consistent_effect st this o :
  consistent st → this ∈ live st → objects st !! this = Some o →
  NoDup (live (beforeDestroy st this)) ∧
  (∀ x, x ∈ PartComponents (beforeDestroy st this) ↔
        x ∈ PartComponents st ∧ x ≠ this) ∧
  (∀ x, x ∈ LineComponents (beforeDestroy st this) ↔
        x ∈ LineComponents st ∧ x ≠ this) ∧
  objects (beforeDestroy st this) = objects st ∧
  mapHash (beforeDestroy st this) = (deleteId (mapHash st) (id o)).1.
Proof.
  intros (Hnd & Hm & Hd) Hthis Ho.
  destruct (Hm this Hthis) as (o' & Ho' & _ & HP & HL).
  assert (o' = o) as -> by congruence.
  assert (Hself : id_is st (id o) this = true) by (apply id_is_true; eauto).
  assert (Honly : ∀ x, x ∈ live st → id_is st (id o) x = true → x = this).
  { intros x Hx (ox & Hox & E)%id_is_true. by eapply Hd. }
  unfold live in *. apply NoDup_app in Hnd as (HndP & Hdisj & HndL).
  unfold beforeDestroy. rewrite Ho.
  destruct (is_line (type o)) eqn:Hty; simpl.
  - assert (HinL : this ∈ LineComponents st).
    { apply elem_of_app in Hthis as [?%HP|?]; [congruence|done]. }
    assert (Hdel := array_delete_only (id_is st (id o)) (LineComponents st) this
                      HndL HinL Hself
                      (λ x Hx, Honly x (proj2 (elem_of_app _ _ _) (or_intror Hx)))).
    split; [|split; [|split]]; try done.
    + apply NoDup_app. split; [done|]. split.
      * intros x Hx [Hx' _]%Hdel. by eapply Hdisj.
      * apply (sublist_NoDup _ (LineComponents st)); [done|apply array_delete_sublist].
    + intros x. split; [|naive_solver]. intros Hx. split; [done|].
      intros ->. by eapply Hdisj.
  - assert (HinP : this ∈ PartComponents st).
    { apply elem_of_app in Hthis as [?|?%HL]; [done|congruence]. }
    assert (Hdel := array_delete_only (id_is st (id o)) (PartComponents st) this
                      HndP HinP Hself
                      (λ x Hx, Honly x (proj2 (elem_of_app _ _ _) (or_introl Hx)))).
    split; [|split; [|split]]; try done.
    + apply NoDup_app. split.
      * apply (sublist_NoDup _ (PartComponents st)); [done|apply array_delete_sublist].
      * split; [|done]. intros x [Hx _]%Hdel. by apply Hdisj.
    + intros x. split; [|naive_solver]. intros Hx. split; [done|].
      intros ->. by apply (Hdisj this).
Qed.

Lemma consistent_beforeDestroy st this :
  consistent st → this ∈ live st → consistent (beforeDestroy st this).
Proof.
  intros Hc Hthis. pose proof Hc as (Hnd & Hm & Hd).
  destruct (Hm this Hthis) as (o & Ho & _).
  destruct (beforeDestroy_consistent_effect st this o Hc Hthis Ho)
    as (Hnd' & HP' & HL' & Hobj & Hmap).
  assert (Hlive : ∀ x, x ∈ live (beforeDestroy st this) → x ∈ live st ∧ x ≠ this).
  { intros x. unfold live. rewrite !elem_of_app, HP', HL'. naive_solver. }
  split; [done|]. split.
  - intros r Hr. destruct (Hlive r Hr) as [Hr' Hne].
    destruct (Hm r Hr') as (o' & Ho' & Hused & HP & HL).
    exists o'. rewrite Hobj, Hmap. split; [done|]. split.
    + rewrite hasId_deleteId_ne; [done|]. intros E. apply Hne.
      by apply (Hd r this o' o).
    + split; [intros [? _]%HP'; auto | intros [? _]%HL'; auto].
  - intros r1 r2 o1 o2 [H1 _]%Hlive [H2 _]%Hlive. rewrite Hobj. by apply Hd.
Qed.

(** *** The tick *)

Lemma run_watcher_quiet st r :
  (∀ o value, objects st !! r = Some o →
              watchers st !! r = Some (Some value) → value = id o) →
  run_watcher st r = st.
Proof.
  intros H. unfold run_watcher.
  destruct (watchers st !! r) as [[value|]|]; [|done..].
  destruct (objects st !! r) as [o|]; [|done].
  destruct (decide (id o = value)) as [|Hne]; [done|].
  destruct Hne. symmetry. by apply H.
Qed.

Lemma foldl_run_watcher_quiet (l : list nat) st :
  (∀ r o value, r ∈ l → objects st !! r = Some o →
                watchers st !! r = Some (Some value) → value = id o) →
  foldl run_watcher st l = st.
Proof.
  induction l as [|r l IH]; intros H; simpl; [done|].
  rewrite run_watcher_quiet.
  - apply IH. intros r' o value Hr'. apply H. by right.
  - intros o value. apply H. by left.
Qed.

(** Nothing happens at a tick when no assignment is waiting. *)
Lemma flush_settled st : settled st → flush st = st.
Proof.
  intros H. apply foldl_run_watcher_quiet. intros r o value _. apply H.
Qed.

(** With one assignment waiting, the tick is one call of [changeId]. *)
Lemma flush_one st this o value :
  objects st !! this = Some o → watchers st !! this = Some (Some value) →
  value ≠ id o →
  (∀ r o' v, r ≠ this → objects st !! r = Some o' →
             watchers st !! r = Some (Some v) → v = id o') →
  flush st = set_watcher (changeId st (id o) value) this (Some (id o)).
Proof.
  intros Ho Hw Hne Hothers. unfold flush.
  assert (Hlt : this < length (watchers st)) by by eapply lookup_lt_Some.
  assert (seq 0 (length (watchers st))
          = seq 0 this ++ this :: seq (S this) (length (watchers st) - S this))
    as ->.
  { replace (length (watchers st))
      with (this + S (length (watchers st) - S this)) at 1 by lia.
    by rewrite seq_app. }
  rewrite foldl_app. simpl.
  rewrite (foldl_run_watcher_quiet (seq 0 this) st).
  2:{ intros r o' v Hr%elem_of_seq. apply Hothers. lia. }
  assert (run_watcher st this
          = set_watcher (changeId st (id o) value) this (Some (id o))) as ->.
  { unfold run_watcher. rewrite Hw, Ho.
    destruct (decide (id o = value)); [congruence|done]. }
  apply foldl_run_watcher_quiet.
  intros r o' v Hr%elem_of_seq. simpl. intros Ho' Hv.
  rewrite list_lookup_insert_ne in Hv by lia.
  eapply Hothers; [|done..]. lia.
Qed.




(** The renaming of an entity whose watcher has seen its id, to another
    id: one call [changeId(B, id)] at the tick. *)
Lemma RenameEntity_changed st this o B :
  settled st → objects st !! this = Some o →
  watchers st !! this = Some (Some (id o)) → B ≠ id o →
  RenameEntity st this B =
    {| mapHash := (deleteId (markId (mapHash st) B) (id o)).1;
       PartComponents := PartComponents st;
       LineComponents := LineComponents st;
       objects := alter (with_id B) this (objects st);
       watchers := <[this := Some B]> (watchers st) |}.
Proof.
  intros Hs Ho Hw Hne. unfold RenameEntity.
  rewrite (flush_one (set_id st this B) this (with_id B o) (id o)).
  - done.
  - simpl. by rewrite list_lookup_alter_eq, Ho.
  - done.
  - simpl. congruence.
  - intros r o' v Hr. simpl. rewrite list_lookup_alter_ne by done. apply Hs.
Qed.

Lemma insert_snoc {A : Type} (l : list A) x y :
  <[length l := y]> (l ++ [x]) = l ++ [y].
Proof. rewrite insert_app_r_alt by done. by rewrite Nat.sub_diag. Qed.

Lemma markId_idemp (m : gmap string bool) a : markId (markId m a) a = markId m a.
Proof.
  unfold markId. destruct (decide (a = "__proto__")); [done|].
  apply insert_insert_eq.
Qed.

Lemma candidate_nonempty pre n : candidate pre n ≠ EmptyString.
Proof. unfold candidate. by destruct pre. Qed.

Lemma createId_Ok_nonempty (m : gmap string bool) arg ans :
  createId m arg = Ok ans → ans ≠ EmptyString.
Proof.
  intros E. destruct (Pattern.match_prefix arg) as [pre|] eqn:Hpre.
  - pose proof (createId_cases m arg pre Hpre) as H. rewrite E in H.
    destruct H as (n & _ & _ & ->). apply candidate_nonempty.
  - unfold createId in E. by rewrite Hpre in E.
Qed.

(** The tick after a creation: the watcher of the new entity sees the id
    the entity has received, and the table stays as it is. *)
Lemma flush_registered st o newId :
  settled st → length (watchers st) = length (objects st) →
  hasId (mapHash st) EmptyString = false → newId ≠ EmptyString →
  id o = newId ∨ id o = EmptyString →
  flush (registered st o newId)
  = set_watcher (registered st o newId) (length (objects st)) (Some newId).
Proof.
  intros Hs Hlen Hempty Hne Hid.
  assert (Hold : ∀ r o' v, r ≠ length (objects st) →
            objects (registered st o newId) !! r = Some o' →
            watchers (registered st o newId) !! r = Some (Some v) → v = id o').
  { intros r o' v Hr. simpl. intros Ho' Hv.
    assert (r < length (objects st)).
    { apply lookup_lt_Some in Ho'. rewrite length_app in Ho'. simpl in Ho'. lia. }
    rewrite lookup_app_l in Ho' by done. rewrite lookup_app_l in Hv by lia.
    by eapply Hs. }
  assert (Hw : watchers (registered st o newId) !! length (objects st)
               = Some (Some (id o))).
  { simpl. rewrite <- Hlen. by rewrite list_lookup_middle. }
  destruct (decide (id o = newId)) as [E|E].
  - rewrite flush_settled.
    + unfold registered, set_watcher. simpl. f_equal.
      by rewrite <- Hlen, insert_snoc, E.
    + intros r o' v Ho' Hv. destruct (decide (r = length (objects st))) as [->|].
      * rewrite Hw in Hv. rewrite lookup_registered_new in Ho'.
        injection Hv as <-. injection Ho' as <-. done.
      * by eapply Hold.
  - destruct Hid as [?|Hid]; [done|].
    rewrite (flush_one _ (length (objects st)) (with_id newId o) EmptyString).
    + unfold registered, set_watcher, changeId, set_mapHash. simpl. f_equal.
      rewrite markId_idemp. rewrite deleteId_unmarked; [done|].
      by rewrite hasId_markId_ne.
    + apply lookup_registered_new.
    + by rewrite Hw, Hid.
    + simpl. congruence.
    + exact Hold.
Qed.

Lemma flush_new_component st o :
  settled st → length (watchers st) = length (objects st) →
  flush (new_component st o).1 = (new_component st o).1.
Proof.
  intros Hs Hlen. apply flush_settled. intros r o' v. simpl. intros Ho' Hv.
  destruct (decide (r < length (objects st))).
  - rewrite lookup_app_l in Ho' by done. rewrite lookup_app_l in Hv by lia.
    by eapply Hs.
  - assert (r = length (objects st)) as ->.
    { apply lookup_lt_Some in Ho'. rewrite length_app in Ho'. simpl in Ho'. lia. }
    rewrite list_lookup_middle in Ho' by done.
    rewrite list_lookup_middle in Hv by done. congruence.
Qed.

Lemma objects_beforeDestroy st this : objects (beforeDestroy st this) = objects st.
Proof.
  unfold beforeDestroy. destruct (objects st !! this) as [o|]; [|done].
  by destruct (is_line (type o)).
Qed.

Lemma watchers_beforeDestroy st this :
  watchers (beforeDestroy st this) = watchers st.
Proof.
  unfold beforeDestroy. destruct (objects st !! this) as [o|]; [|done].
  by destruct (is_line (type o)).
Qed.

Lemma settled_DestroyEntity st this : settled st → settled (DestroyEntity st this).
Proof.
  intros Hs r o v. unfold DestroyEntity. simpl.
  rewrite objects_beforeDestroy, watchers_beforeDestroy. intros Ho Hv.
  destruct (decide (r = this)) as [->|].
  - apply lookup_lt_Some in Hv as Hlt. rewrite length_insert in Hlt.
    by rewrite list_lookup_insert_eq in Hv.
  - rewrite list_lookup_insert_ne in Hv by done. by eapply Hs.
Qed.

Lemma flush_DestroyEntity st this :
  settled st → flush (DestroyEntity st this) = DestroyEntity st this.
Proof. intros Hs. by apply flush_settled, settled_DestroyEntity. Qed.

(** *** The invariant *)

Lemma calm_init : calm (@init PartType).
Proof.
  split; [by intros r o v ?|]. split; [done|]. split; [by intros r ?%elem_of_nil|].
  split; [done|]. by intros r o ?%elem_of_nil.
Qed.

Lemma permitted_new_id st o newId :
  permitted st (Create o) →
  (if Pattern.nonempty (id o) then Ok (id o)
   else createId (mapHash st) (type_prefix Electronics_pre (type o))) = Ok newId →
  hasId (mapHash st) newId = false ∧ newId ≠ EmptyString ∧
  (id o = newId ∨ id o = EmptyString).
Proof.
  simpl. intros Hp. destruct (Pattern.nonempty (id o)) eqn:E.
  - intros [= <-]. destruct Hp as [Hp|]; [by rewrite Hp in E|].
    split; [done|]. split; [|by left]. intros E'. by rewrite E' in E.
  - intros Hc. split; [by eapply createId_Ok_free|].
    split; [by eapply createId_Ok_nonempty|]. right. by destruct (id o).
Qed.

(** What the three calls, each with its tick, make of a state that is
    consistent and calm. *)
Lemma exec_Create_Ok st o newId :
  calm st →
  (if Pattern.nonempty (id o) then Ok (id o)
   else createId (mapHash st) (type_prefix Electronics_pre (type o))) = Ok newId →
  newId ≠ EmptyString → id o = newId ∨ id o = EmptyString →
  exec st (Create o)
  = set_watcher (registered st o newId) (length (objects st)) (Some newId).
Proof.
  intros (Hs & Hlen & _ & Hempty & _) E Hne Hid. simpl.
  rewrite CreateEntity_unfold, E. simpl. by apply flush_registered.
Qed.

Lemma exec_Create_Throw st o e :
  calm st →
  (if Pattern.nonempty (id o) then Ok (id o)
   else createId (mapHash st) (type_prefix Electronics_pre (type o))) = Throw e →
  exec st (Create o) = (new_component st o).1.
Proof.
  intros (Hs & Hlen & _) E. simpl.
  rewrite CreateEntity_unfold, E. simpl. by apply flush_new_component.
Qed.

Lemma exec_Destroy st this :
  calm st → exec st (Destroy this) = DestroyEntity st this.
Proof. intros (Hs & _). simpl. by apply flush_DestroyEntity. Qed.

Lemma live_watched st r :
  consistent st → calm st → r ∈ live st →
  ∃ o, objects st !! r = Some o ∧ watchers st !! r = Some (Some (id o)) ∧
       hasId (mapHash st) (id o) = true ∧ inherited (id o) = false.
Proof.
  intros (_ & Hm & _) (Hs & _ & Hw & _ & Hown) Hr.
  destruct (Hm r Hr) as (o & Ho & Hused & _). destruct (Hw r Hr) as [v Hv].
  exists o. split; [done|]. split; [|split; [done|by eapply Hown]].
  by rewrite Hv, (Hs r o v Ho Hv).
Qed.

Lemma exec_Rename st this o newId :
  consistent st → calm st → this ∈ live st → objects st !! this = Some o →
  hasId (mapHash st) newId = false →
  exec st (Rename this newId) =
    {| mapHash := (deleteId (markId (mapHash st) newId) (id o)).1;
       PartComponents := PartComponents st;
       LineComponents := LineComponents st;
       objects := alter (with_id newId) this (objects st);
       watchers := <[this := Some newId]> (watchers st) |}.
Proof.
  intros Hc Hcalm Hthis Ho Hfree.
  destruct (live_watched st this Hc Hcalm Hthis) as (o' & Ho' & Hw & Hused & _).
  assert (o' = o) as -> by congruence.
  simpl. apply RenameEntity_changed; [by destruct Hcalm|done..|congruence].
Qed.

Lemma consistent_Renamed st this o newId :
  consistent st → this ∈ live st → objects st !! this = Some o →
  hasId (mapHash st) newId = false →
  consistent
    {| mapHash := (deleteId (markId (mapHash st) newId) (id o)).1;
       PartComponents := PartComponents st;
       LineComponents := LineComponents st;
       objects := alter (with_id newId) this (objects st);
       watchers := <[this := Some newId]> (watchers st) |}.
Proof.
  intros (Hnd & Hm & Hd) Hthis Ho Hfree.
  destruct (Hm this Hthis) as (o' & Ho' & Hused & HP & HL).
  assert (o' = o) as -> by congruence.
  assert (Hne : newId ≠ id o) by congruence.
  split; [done|]. split.
  - intros r Hr. simpl. destruct (decide (r = this)) as [->|Hr'].
    + exists (with_id newId o). split.
      { by rewrite list_lookup_alter_eq, Ho. }
      split; [|done]. simpl.
      rewrite hasId_deleteId_ne by done. apply hasId_markId_eq.
    + destruct (Hm r Hr) as (o' & Ho'' & Hused' & ?).
      exists o'. rewrite list_lookup_alter_ne by done.
      split; [done|]. split; [|done].
      rewrite hasId_deleteId_ne.
      * destruct (decide (newId = id o')) as [->|?];
          [apply hasId_markId_eq | by rewrite hasId_markId_ne].
      * intros E. apply Hr'. by apply (Hd r this o' o).
  - assert (Hother : ∀ r o', r ∈ live st → r ≠ this →
              objects st !! r = Some o' → id o' ≠ newId).
    { intros r o' Hr _ Ho'' E. destruct (Hm r Hr) as (o'' & ? & ? & _). congruence. }
    intros r1 r2 o1 o2 H1 H2. simpl.
    destruct (decide (r1 = this)) as [->|N1], (decide (r2 = this)) as [->|N2];
      [done| | |].
    + rewrite list_lookup_alter_eq, Ho, list_lookup_alter_ne by done.
      simpl. intros [= <-] Ho2 E. simpl in E. by destruct (Hother r2 o2).
    + rewrite list_lookup_alter_eq, Ho, list_lookup_alter_ne by done.
      simpl. intros Ho1 [= <-] E. simpl in E. by destruct (Hother r1 o1).
    + rewrite !list_lookup_alter_ne by done. by apply Hd.
Qed.

Lemma hasId_empty_deleteId (m : gmap string bool) a :
  hasId m EmptyString = false → hasId (deleteId m a).1 EmptyString = false.
Proof.
  intros H. destruct (decide (a = EmptyString)) as [->|].
  - by rewrite hasId_deleteId_eq.
  - by rewrite hasId_deleteId_ne.
Qed.

Lemma consistent_exec st c :
  consistent st → calm st → permitted st c →
  consistent (exec st c) ∧ calm (exec st c).
Proof.
  intros Hc Hcalm Hp. pose proof Hcalm as (Hs & Hlen & Hw & Hempty & Hown).
  pose proof Hc as (Hnd & Hm & Hd).
  destruct c as [o|this|this newId].
  - destruct (if Pattern.nonempty (id o) then Ok (id o)
              else createId (mapHash st) (type_prefix Electronics_pre (type o)))
      as [newId|e|] eqn:E.
    + destruct (permitted_new_id st o newId Hp E) as (Hfree & Hne & Hid).
      rewrite (exec_Create_Ok st o newId Hcalm E Hne Hid).
      split; [exact (consistent_registered st o newId Hc Hfree)|].
      assert (Hlive : ∀ r, r ∈ live (registered st o newId) →
                r ∈ live st ∨ r = length (objects st))
        by (intros r; apply live_registered).
      unfold set_watcher.
      split; [|split; [|split; [|split]]]; unfold registered at 1; simpl.
      * intros r o' v Ho' Hv. simpl in Ho', Hv.
        destruct (decide (r = length (objects st))) as [->|Hr].
        -- rewrite list_lookup_middle in Ho' by done. injection Ho' as <-.
           rewrite <- Hlen in Hv.
           rewrite list_lookup_insert_eq in Hv
             by (rewrite length_app; simpl; lia).
           by injection Hv as <-.
        -- rewrite list_lookup_insert_ne in Hv by done.
           assert (r < length (objects st)).
           { apply lookup_lt_Some in Ho'. rewrite length_app in Ho'.
             simpl in Ho'. lia. }
           rewrite lookup_app_l in Ho' by done.
           rewrite lookup_app_l in Hv by lia. by eapply Hs.
      * rewrite length_insert, !length_app. simpl. lia.
      * intros r [Hr| ->]%Hlive; simpl.
        -- destruct (Hw r Hr) as [v Hv]. exists v.
           assert (r < length (objects st)) by by apply (live_valid st).
           rewrite list_lookup_insert_ne by lia. by apply lookup_app_l_Some.
        -- exists newId. rewrite <- Hlen.
           apply list_lookup_insert_eq. rewrite length_app. simpl. lia.
      * by rewrite hasId_markId_ne.
      * intros r o' [Hr| ->]%Hlive Ho'; simpl in Ho'.
        -- rewrite lookup_app_l in Ho' by by apply (live_valid st).
           by eapply Hown.
        -- rewrite list_lookup_middle in Ho' by done. injection Ho' as <-.
           simpl. by apply hasId_false in Hfree as [_ ?].
    + rewrite (exec_Create_Throw st o e Hcalm E).
      split; [by apply consistent_new_component|].
      split; [|split; [|split; [|split]]]; simpl.
      * intros r o' v Ho' Hv. simpl in Ho', Hv. destruct (decide (r < length (objects st))).
        -- rewrite lookup_app_l in Ho' by done.
           rewrite lookup_app_l in Hv by lia. by eapply Hs.
        -- assert (r = length (objects st)) as ->.
           { apply lookup_lt_Some in Ho'. rewrite length_app in Ho'.
             simpl in Ho'. lia. }
           rewrite list_lookup_middle in Ho' by done.
           rewrite list_lookup_middle in Hv by done. congruence.
      * rewrite !length_app. simpl. lia.
      * intros r Hr. destruct (Hw r Hr) as [v Hv]. exists v. simpl.
        by apply lookup_app_l_Some.
      * done.
      * intros r o' Hr Ho'. simpl in Ho'.
        rewrite lookup_app_l in Ho' by by apply (live_valid st). by eapply Hown.
    + simpl in E. exfalso.
      destruct (Pattern.nonempty (id o)); [done|].
      destruct (Pattern.match_prefix (type_prefix Electronics_pre (type o)))
        as [pre|] eqn:Hpre.
      * pose proof (createId_cases (mapHash st) _ pre Hpre) as H.
        by rewrite E in H.
      * unfold createId in E. by rewrite Hpre in E.
  - simpl in Hp. rewrite (exec_Destroy st this Hcalm).
    destruct (Hm this Hp) as (o & Ho & _).
    destruct (beforeDestroy_consistent_effect st this o Hc Hp Ho)
      as (_ & HP' & HL' & Hobj & Hmap).
    assert (Hlive : ∀ x, x ∈ live (beforeDestroy st this) → x ∈ live st ∧ x ≠ this).
    { intros x. unfold live. rewrite !elem_of_app, HP', HL'. naive_solver. }
    split; [exact (consistent_beforeDestroy st this Hc Hp)|].
    split; [by apply settled_DestroyEntity|].
    unfold DestroyEntity. simpl.
    rewrite watchers_beforeDestroy, Hobj, Hmap.
    split; [by rewrite length_insert|]. split; [|split].
    + intros r [Hr Hne]%Hlive. destruct (Hw r Hr) as [v Hv]. exists v.
      by rewrite list_lookup_insert_ne.
    + by apply hasId_empty_deleteId.
    + intros r o' [Hr _]%Hlive. by apply Hown.
  - destruct Hp as (Hthis & Hne & Hfree).
    destruct (Hm this Hthis) as (o & Ho & Hused & _).
    rewrite (exec_Rename st this o newId Hc Hcalm Hthis Ho Hfree).
    destruct (Hw this Hthis) as [v0 Hv0].
    assert (Hlt : this < length (watchers st)) by by eapply lookup_lt_Some.
    split; [by apply consistent_Renamed|].
    split; [|split; [|split; [|split]]]; simpl.
    + intros r o' v Ho' Hv. simpl in Ho', Hv. destruct (decide (r = this)) as [->|].
      * rewrite list_lookup_alter_eq, Ho in Ho'. injection Ho' as <-.
        rewrite list_lookup_insert_eq in Hv by done.
        by injection Hv as <-.
      * rewrite list_lookup_alter_ne in Ho' by done.
        rewrite list_lookup_insert_ne in Hv by done. by eapply Hs.
    + by rewrite length_insert, length_alter.
    + intros r Hr. destruct (decide (r = this)) as [->|].
      * exists newId. by apply list_lookup_insert_eq.
      * destruct (Hw r Hr) as [v Hv]. exists v. by rewrite list_lookup_insert_ne.
    + apply hasId_empty_deleteId. by rewrite hasId_markId_ne.
    + intros r o' Hr. destruct (decide (r = this)) as [->|].
      * rewrite list_lookup_alter_eq, Ho. intros [= <-]. simpl.
        by apply hasId_false in Hfree as [_ ?].
      * rewrite list_lookup_alter_ne by done. by apply Hown.
Qed.

Lemma reachable_invariant st : reachable st → consistent st ∧ calm st.
Proof.
  induction 1 as [|st c _ [IH1 IH2] Hp]; [split; [apply consistent_init|apply calm_init]|].
  by apply consistent_exec.
Qed.

Lemma reachable_consistent st : reachable st → consistent st.
Proof. intros H. by apply reachable_invariant. Qed.

Lemma reachable_calm st : reachable st → calm st.
Proof. intros H. by apply reachable_invariant. Qed.

Lemma reachable_by_foldl ok cs : ∀ st,
  reachable_by Electronics_pre ok st →
  (∀ n c, cs !! n = Some c → ok (foldl exec st (take n cs)) c) →
  reachable_by Electronics_pre ok (foldl exec st cs).
Proof.
  induction cs as [|c cs IH]; intros st Hst Hok; [done|].
  simpl. apply IH.
  - apply reachable_step; [done|]. by apply (Hok 0).
  - intros n c' Hc'. by apply (Hok (S n)).
Qed.


Lemma find_some_first {A : Type} (p : A → bool) (l : list A) x :
  x ∈ l → p x = true → ∃ y, find p l = Some y ∧ p y = true ∧ y ∈ l.
Proof.
  induction l as [|z l IH]; intros Hx Hp; [by inversion Hx|].
  simpl. destruct (p z) eqn:Hz.
  - exists z. split; [done|]. split; [done|by left].
  - apply elem_of_cons in Hx as [->|Hx]; [congruence|].
    destruct (IH Hx Hp) as (y & ? & ? & ?). exists y. split; [done|].
    split; [done|by right].
Qed.

Lemma match_token_exact s : exact_form s → Pattern.match_token s = Some s.
Proof.
  unfold exact_form. intros H.
  assert (Pattern.match_token s =
          match Pattern.token_here s with
          | Some t => Some t
          | None => match s with
                    | EmptyString => None
                    | String _ s' => Pattern.match_token s'
                    end
          end) as -> by by destruct s.
  by rewrite H.
Qed.

(** The part finder looks for the token extracted from its argument. *)
Lemma findPartComponent_normalizes st s tok r o :
  Pattern.match_token s = Some tok →
  r ∈ PartComponents st → objects st !! r = Some o → id o = tok →
  ∃ r' o', findPartComponent st (KString s) = Ok r' ∧
           r' ∈ PartComponents st ∧ objects st !! r' = Some o' ∧ id o' = tok.
Proof.
  intros Htok Hr Ho Hid. unfold findPartComponent. rewrite Htok.
  destruct (find_some_first (id_is st tok) (PartComponents st) r Hr)
    as (r' & -> & (o' & ? & ?)%id_is_true & ?).
  - apply id_is_true. eauto.
  - by exists r', o'.
Qed.

(** The wire finder compares the argument as it is. *)
Lemma findLineComponent_raw st s r :
  findLineComponent st (KString s) = Ok r →
  r ∈ LineComponents st ∧ id <$> objects st !! r = Some s.
Proof.
  unfold findLineComponent.
  destruct (find (id_is st s) (LineComponents st)) as [r'|] eqn:E; [|done].
  intros [= <-]. apply find_some in E as [Hin Hp].
  split; [by apply list_elem_of_In|].
  unfold id_is in Hp. by apply bool_decide_eq_true in Hp.
Qed.





Lemma marked_carried_by_none st X :
  registered_marked st → hasId (mapHash st) X = false → carried_by_none st X.
Proof.
  intros Hm Hfree r Hr. destruct (Hm r Hr) as (o & Ho & Hused).
  exists o. split; [done|]. congruence.
Qed.

(** An id that [CreateEntity] allocates is carried by no live entity, when
    every registered entity has its id marked. *)
Lemma allocated_carried_by_none st o st1 this X :
  registered_marked st → id o = EmptyString →
  CreateEntity st o = Ok (st1, this) → id <$> objects st1 !! this = Some X →
  carried_by_none st X.
Proof.
  intros Hm Hid. rewrite (CreateEntity_blank _ _ _ Hid).
  destruct (createId _ _) as [newId| |] eqn:E; [|done..].
  simpl. intros [= <- <-]. rewrite lookup_registered_new. intros [= <-].
  apply marked_carried_by_none; [done|]. by eapply createId_Ok_free.
Qed.






End Consistency.

(** ** The registry on the sample catalog *)

Section SampleRegistry.
Import Common Sample.

Lemma createId_first_free_within_limit_witness :
  Pattern.match_prefix "R" = Some "R" ∧
  createId (<["R_1" := true]> ∅) "R" = Ok "R_2" ∧
  ∃ st49 st50 r,
    create_all Electronics_pre init (replicate 49 (part resistance EmptyString)) = Ok st49 ∧
    CreateEntity Electronics_pre st49 (part resistance EmptyString) = Ok (st50, r) ∧
    id <$> objects st50 !! r = Some (candidate "R" 50) ∧
    CreateEntity Electronics_pre st50 (part resistance EmptyString) = Throw capacity_error.
Proof.
  pose proof (createId_first_free_within_limit Electronics_pre
                (<["R_1" := true]> ∅) "R" "R" eq_refl) as (H1 & _ & _ & H4 & _).
  split; [reflexivity|]. split.
  - apply H1. exists 2%N. split; [|split; reflexivity].
    split; [lia|]. split; [reflexivity|].
    intros j Hj. assert (j = 1%N) as -> by lia. reflexivity.
  - apply (H4 (part resistance EmptyString)); [reflexivity|reflexivity|discriminate].
Defined.

Lemma session_reachable : reachable Electronics_pre (run session).
Proof.
  apply reachable_by_foldl; [constructor|].
  intros n c Hn.
  destruct n as [|[|[|[|[|[|n]]]]]]; [..|done]; injection Hn as <-.
  - by left.
  - by left.
  - by right.
  - split; [|done]. apply list_elem_of_In. vm_compute. auto.
  - by left.
  - apply list_elem_of_In. vm_compute. auto.
Qed.



Lemma one_part_reachable : reachable Electronics_pre (run one_part).
Proof.
  apply reachable_by_foldl; [constructor|].
  intros n c Hn. destruct n as [|n]; [|done]. injection Hn as <-. by left.
Qed.

Lemma one_part_settled : settled (run one_part).
Proof. apply (reachable_calm Electronics_pre), one_part_reachable. Qed.





Lemma one_part_registered_marked : registered_marked (run one_part).
Proof.
  apply registered_in_kind_marked, (reachable_consistent Electronics_pre).
  apply one_part_reachable.
Qed.



(** Why the tick matters.  The part ["R_1"] is assigned the id ["R_2"],
    which is free, and before the tick a second resistance is created.
    The table still has ["R_1"] marked and ["R_2"] free, so the allocator
    hands ["R_2"] out, and two live parts carry it, before the tick and
    after it. *)
Lemma rename_then_create_before_tick :
  live_ids (run one_part) = ["R_1"] ∧
  hasId (mapHash (set_id (run one_part) 0 "R_2")) "R_1" = true ∧
  hasId (mapHash (set_id (run one_part) 0 "R_2")) "R_2" = false ∧
  CreateEntity Electronics_pre (set_id (run one_part) 0 "R_2")
    (part resistance EmptyString)
    = Ok (registered (set_id (run one_part) 0 "R_2")
            (part resistance EmptyString) "R_2", 1) ∧
  live_ids (registered (set_id (run one_part) 0 "R_2")
              (part resistance EmptyString) "R_2") = ["R_2"; "R_2"] ∧
  live_ids (flush (registered (set_id (run one_part) 0 "R_2")
                     (part resistance EmptyString) "R_2")) = ["R_2"; "R_2"] ∧
  hasId (mapHash (flush (registered (set_id (run one_part) 0 "R_2")
                           (part resistance EmptyString) "R_2"))) "R_1" = false.
Proof. repeat split; reflexivity. Qed.

(** C8.  The part finder extracts the token from the text it is given;
    the wire finder does not: it finds the wire under its exact id and
    throws for a text that merely contains that id. *)
Theorem findLineComponent_does_not_normalize :
  live_ids (run part_and_wire) = ["R_1"; "line_1"] ∧
  Pattern.match_token "#R_1-0" = Some "R_1" ∧
  findPartComponent (run part_and_wire) (KString "#R_1-0") = Ok 0 ∧
  findLineComponent (run part_and_wire) (KString "line_1") = Ok 1 ∧
  Pattern.match_token "#line_1" = Some "line_1" ∧
  findLineComponent (run part_and_wire) (KString "#line_1")
    = Throw (Error "Can not find this line: #line_1").
Proof. repeat split; reflexivity. Qed.

End SampleRegistry.

(** ** The numeric codec *)

Section Matcher.
Import Number.
Implicit Types (s m rest : list N) (c : N).

Lemma span_spec p s a b :
  span p s = (a, b) →
  s = a ++ b ∧ forallb p a = true ∧
  match b with c :: _ => p c = false | [] => True end.
Proof.
  revert a b. induction s as [|c s IH]; intros a b; simpl.
  - by intros [= <- <-].
  - destruct (p c) eqn:Hc.
    + destruct (span p s) as [a' b']. intros [= <- <-].
      destruct (IH a' b' eq_refl) as (-> & ? & ?). simpl. by rewrite Hc.
    + by intros [= <- <-].
Qed.

Lemma span_app p a b :
  forallb p a = true → match b with c :: _ => p c = false | [] => True end →
  span p (a ++ b) = (a, b).
Proof.
  intros Ha Hb. induction a as [|c a IH]; simpl.
  - destruct b as [|c b]; [done|]. simpl. by rewrite Hb.
  - simpl in Ha. apply andb_true_iff in Ha as [-> Ha]. by rewrite IH.
Qed.

Lemma nonempty_true s : nonempty s = true ↔ s ≠ [].
Proof. by destruct s. Qed.

Lemma is_eE_cases c : is_eE c = true → c = ch "e" ∨ c = ch "E".
Proof.
  unfold is_eE. rewrite orb_true_iff, !N.eqb_eq. tauto.
Qed.

Lemma is_unit_cases c :
  is_unit c = true →
  c ∈ [ch "p"; ch "u"; mu; ch "n"; ch "m"; ch "k"; ch "M"; ch "G"].
Proof.
  unfold is_unit. intros (x & Hx & ->%N.eqb_eq)%existsb_exists.
  by apply list_elem_of_In.
Qed.

(** A character that continues a numeral after its mantissa is neither a
    digit nor the dot. *)
Lemma continues_not_digit c : continues c → is_digit c = false ∧ c ≠ ch ".".
Proof.
  intros [H|H].
  - by destruct (is_eE_cases c H) as [-> | ->].
  - apply is_unit_cases in H. set_unfold in H.
    by destruct H as [->|[->|[->|[->|[->|[->|[->|[->|[]]]]]]]]].
Qed.

Lemma mantissa_Some s rest :
  mantissa s = Some rest → ∃ m, decimal m ∧ s = m ++ rest.
Proof.
  unfold mantissa. destruct (span is_digit s) as [int r] eqn:E.
  apply span_spec in E as (-> & Hint & Hr).
  destruct (nonempty int) eqn:Hne; [|done]. apply nonempty_true in Hne.
  assert (Hplain : decimal int ∧ int ++ r = int ++ r).
  { split; [|done]. exists int. split; [done|by left]. }
  destruct r as [|c r']; [intros [= <-]; by exists int|].
  destruct (c =? ch ".")%N eqn:Hc; [|intros [= <-]; by exists int].
  apply N.eqb_eq in Hc as ->.
  destruct (span is_digit r') as [frac r''] eqn:E'.
  apply span_spec in E' as (-> & Hfrac & _).
  destruct (nonempty frac) eqn:Hne'; [|intros [= <-]; by exists int].
  apply nonempty_true in Hne'. intros [= <-].
  exists (int ++ ch "." :: frac). split.
  - exists int. split; [done|]. right. by exists frac.
  - by rewrite <- app_assoc.
Qed.

Lemma mantissa_decimal m rest :
  decimal m →
  match rest with c :: _ => continues c | [] => True end →
  mantissa (m ++ rest) = Some rest.
Proof.
  intros (int & [Hne Hint] & Hm) Hrest.
  assert (Hr : match rest with c :: _ => is_digit c = false | [] => True end).
  { destruct rest as [|c ?]; [done|]. by apply continues_not_digit. }
  unfold mantissa. destruct Hm as [->|(frac & [Hne' Hfrac] & ->)].
  - rewrite (span_app _ _ _ Hint Hr).
    apply nonempty_true in Hne as ->.
    destruct rest as [|c rest']; [done|].
    apply continues_not_digit in Hrest as [_ Hdot].
    by apply N.eqb_neq in Hdot as ->.
  - rewrite <- app_assoc, <- app_comm_cons.
    rewrite (span_app _ int (ch "." :: frac ++ rest) Hint) by done.
    apply nonempty_true in Hne as ->. rewrite N.eqb_refl.
    rewrite (span_app _ _ _ Hfrac Hr).
    by apply nonempty_true in Hne' as ->.
Qed.

Lemma exponent_spec rest :
  exponent rest = true ↔ ∃ e, digits e ∧ (rest = e ∨ rest = ch "-" :: e).
Proof.
  unfold exponent, digits. split.
  - destruct rest as [|c r]; [done|].
    destruct (c =? ch "-")%N eqn:Hc.
    + apply N.eqb_eq in Hc as ->. intros [?%nonempty_true ?]%andb_true_iff.
      exists r. auto.
    + intros [?%nonempty_true ?]%andb_true_iff. exists (c :: r). auto.
  - intros (e & [Hne He] & [-> | ->]).
    + destruct e as [|c e]; [done|]. simpl in He.
      destruct (c =? ch "-")%N eqn:Hc.
      * apply N.eqb_eq in Hc as ->. done.
      * by rewrite andb_true_iff.
    + rewrite N.eqb_refl. apply andb_true_iff. by rewrite nonempty_true.
Qed.

(** The matcher accepts exactly the three shapes. *)
Lemma plain_decimal s : plain s = true ↔ decimal s.
Proof.
  unfold plain. split.
  - destruct (mantissa s) as [[|??]|] eqn:E; [|done..]. intros _.
    apply mantissa_Some in E as (m & ? & ->). by rewrite app_nil_r.
  - intros H. rewrite <- (app_nil_r s). by rewrite mantissa_decimal.
Qed.

Lemma scientific_spec s : scientific s = true ↔ scientific_shape s.
Proof.
  unfold scientific, scientific_shape. split.
  - destruct (mantissa s) as [[|c rest]|] eqn:E; [done| |done].
    intros [Hc (e & He & Hrest)%exponent_spec]%andb_true_iff.
    apply mantissa_Some in E as (m & ? & ->).
    exists m, c, e. split; [done|]. split; [done|]. split; [done|].
    destruct Hrest as [-> | ->]; auto.
  - intros (m & c & e & Hm & Hc & He & Hs).
    assert (mantissa s = Some (drop (length m) s)) as ->.
    { destruct Hs as [-> | ->]; rewrite drop_app_length;
        apply mantissa_decimal; try done; by left. }
    destruct Hs as [-> | ->]; rewrite drop_app_length, Hc; simpl;
      apply exponent_spec; exists e; auto.
Qed.

Lemma suffixed_spec s : suffixed s = true ↔ suffixed_shape s.
Proof.
  unfold suffixed, suffixed_shape. split.
  - destruct (mantissa s) as [[|c [|??]]|] eqn:E; try done.
    intros Hc. apply mantissa_Some in E as (m & ? & ->). by exists m, c.
  - intros (m & c & Hm & Hc & ->).
    rewrite mantissa_decimal; [done..|by right].
Qed.

Lemma numberMatcher_shapes s :
  numberMatcher s = true ↔ decimal s ∨ scientific_shape s ∨ suffixed_shape s.
Proof.
  unfold numberMatcher.
  rewrite !orb_true_iff, plain_decimal, scientific_spec, suffixed_spec. tauto.
Qed.

Lemma digits_last d :
  digits d → ∃ d' x, d = d' ++ [x] ∧ is_digit x = true.
Proof.
  intros [Hne Hd]. destruct d as [|x d] using rev_ind; [done|].
  exists d, x. split; [done|].
  rewrite forallb_app in Hd. simpl in Hd.
  by apply andb_true_iff in Hd as [_ [? _]%andb_true_iff].
Qed.

Lemma decimal_last m : decimal m → ∃ m' x, m = m' ++ [x] ∧ is_digit x = true.
Proof.
  intros (int & Hint & [->|(frac & Hfrac & ->)]).
  - by apply digits_last.
  - destruct (digits_last frac Hfrac) as (f' & x & -> & ?).
    exists (int ++ ch "." :: f'), x. split; [|done].
    by rewrite <- app_assoc.
Qed.

Lemma digit_not_eE c : is_digit c = true → is_eE c = false.
Proof.
  unfold is_digit, is_eE, ch. simpl.
  intros [?%N.leb_le ?%N.leb_le]%andb_true_iff.
  apply orb_false_iff. split; apply N.eqb_neq; lia.
Qed.

Lemma digits_no_eE d : forallb is_digit d = true → existsb is_eE d = false.
Proof.
  induction d as [|c d IH]; simpl; [done|].
  intros [?%digit_not_eE ?]%andb_true_iff. apply orb_false_iff. auto.
Qed.

Lemma decimal_no_eE m : decimal m → existsb is_eE m = false.
Proof.
  intros (int & [_ Hint] & [->|(frac & [_ Hfrac] & ->)]).
  - by apply digits_no_eE.
  - rewrite existsb_app. simpl. by rewrite !digits_no_eE.
Qed.

Lemma unit_not_eE c : is_unit c = true → is_eE c = false.
Proof.
  intros H%is_unit_cases. set_unfold in H.
  by destruct H as [->|[->|[->|[->|[->|[->|[->|[->|[]]]]]]]]].
Qed.

(** A text the matcher accepts and that ends in a unit letter is a
    decimal followed by that letter. *)
Lemma accepted_unit_suffixed s c :
  numberMatcher s = true → last s = Some c → is_unit c = true →
  ∃ m, decimal m ∧ s = m ++ [c].
Proof.
  intros [Hs|[Hs|Hs]]%numberMatcher_shapes Hlast Hc.
  - destruct (decimal_last s Hs) as (m' & x & -> & Hx).
    rewrite last_snoc in Hlast. injection Hlast as ->.
    destruct (continues_not_digit c); [by right|congruence].
  - destruct Hs as (m & c' & e & _ & _ & He & Hs).
    destruct (digits_last e He) as (e' & x & -> & Hx). exfalso.
    assert (last s = Some x) as Hx'.
    { destruct Hs as [-> | ->].
      - change (m ++ c' :: e' ++ [x]) with (m ++ (c' :: e') ++ [x]).
        by rewrite app_assoc, last_snoc.
      - change (m ++ c' :: ch "-" :: e' ++ [x])
          with (m ++ (c' :: ch "-" :: e') ++ [x]).
        by rewrite app_assoc, last_snoc. }
    rewrite Hlast in Hx'. injection Hx' as ->.
    destruct (continues_not_digit x); [by right|congruence].
  - destruct Hs as (m & c' & Hm & _ & ->).
    rewrite last_snoc in Hlast. injection Hlast as ->. by exists m.
Qed.

End Matcher.

(** ** The exact interpretation *)

Section ExactArithmetic.
Import Number.

Lemma size_nat_bound p : (Zpos p < 2 ^ Z.of_nat (Pos.size_nat p))%Z.
Proof.
  induction p as [p IH|p IH|]; simpl Pos.size_nat;
    rewrite ?Nat2Z.inj_succ, ?Z.pow_succ_r by lia; lia.
Qed.

Lemma count_digits_spec fuel n :
  (0 < n)%Z → (n < 2 ^ Z.of_nat fuel)%Z →
  (1 ≤ count_digits fuel n)%Z ∧
  (10 ^ (count_digits fuel n - 1) ≤ n < 10 ^ count_digits fuel n)%Z.
Proof.
  revert n. induction fuel as [|fuel IH]; intros n Hpos Hlt.
  - simpl in Hlt. lia.
  - simpl count_digits. destruct (Z.ltb_spec n 10) as [Hn|Hn].
    + simpl. lia.
    + rewrite Nat2Z.inj_succ, Z.pow_succ_r in Hlt by lia.
      assert (Hq : (0 < n / 10)%Z) by (apply Z.div_str_pos; lia).
      assert (Hb : (n / 10 < 2 ^ Z.of_nat fuel)%Z).
      { apply Z.div_lt_upper_bound; lia. }
      destruct (IH (n / 10)%Z Hq Hb) as [Hc [Hlo Hhi]].
      set (c := count_digits fuel (n / 10)) in *.
      replace (1 + c - 1)%Z with (Z.succ (c - 1)) by lia.
      replace (1 + c)%Z with (Z.succ c) by lia.
      rewrite !Z.pow_succ_r by lia.
      pose proof (Z.mul_div_le n 10 ltac:(lia)).
      pose proof (Z.mul_succ_div_gt n 10 ltac:(lia)).
      split; [lia|]. split; nia.
Qed.

Lemma num_digits_spec p :
  (1 ≤ num_digits p)%Z ∧
  (10 ^ (num_digits p - 1) ≤ Zpos p < 10 ^ num_digits p)%Z.
Proof. apply count_digits_spec; [lia|apply size_nat_bound]. Qed.

Lemma ten_nonzero : ¬ (10 == 0)%Q.
Proof. done. Qed.

(** [floor_log10_Q n d] is the integer part of the decimal logarithm of
    [n/d]. *)
Lemma floor_log10_Q_spec n d :
  (Qpower 10 (floor_log10_Q n d) <= Zpos n # d)%Q ∧
  (Zpos n # d < Qpower 10 (floor_log10_Q n d + 1))%Q.
Proof.
  destruct (num_digits_spec n) as [Hn1 [Hnlo Hnhi]].
  destruct (num_digits_spec d) as [Hd1 [Hdlo Hdhi]].
  set (dn := num_digits n) in *. set (dd := num_digits d) in *.
  assert (HP : ∀ e, (0 < Qpower 10 e)%Q) by (intros e; by apply Qpower_0_lt).
  assert (HD : (0 < inject_Z (Zpos d))%Q) by (by rewrite <- (Zlt_Qlt 0)).
  rewrite Zle_Qle, Zpower_Qpower in Hnlo, Hdlo by lia.
  rewrite Zlt_Qlt, Zpower_Qpower in Hnhi, Hdhi by lia.
  change (inject_Z 10) with 10%Q in *.
  unfold floor_log10_Q. fold dn dd.
  pose proof (Qmake_Qdiv (Zpos n) d) as Hq.
  destruct (Qle_bool (Qpower 10 (dn - dd)) (Zpos n # d)) eqn:E.
  - apply Qle_bool_iff in E. split; [exact E|].
    rewrite Hq. apply Qlt_shift_div_r; [exact HD|].
    eapply Qlt_le_trans; [exact Hnhi|].
    replace dn with ((dn - dd + 1) + (dd - 1))%Z at 1 by lia.
    rewrite Qpower_plus by apply ten_nonzero.
    apply Qmult_le_l; [apply HP|exact Hdlo].
  - assert (Hlt : (Zpos n # d < Qpower 10 (dn - dd))%Q).
    { apply Qnot_le_lt. intros Hle%Qle_bool_iff. congruence. }
    replace (dn - dd - 1 + 1)%Z with (dn - dd)%Z by lia.
    split; [|exact Hlt].
    rewrite Hq. apply Qle_shift_div_l; [exact HD|].
    eapply Qle_trans; [|exact Hnlo].
    replace (dn - 1)%Z with ((dn - dd - 1) + dd)%Z by lia.
    rewrite Qpower_plus by apply ten_nonzero.
    apply Qmult_le_l; [apply HP|]. by apply Qlt_le_weak.
Qed.

End ExactArithmetic.

Section Parser.
Import Number.
Context `{Host}.
Implicit Types (s m : list N) (c : N).

Lemma numberParser_suffixed m c :
  decimal m → is_unit c = true →
  numberParser (m ++ [c]) = times (Number_ m) (pow10 (exp_number (Some c))).
Proof.
  intros Hm Hc. unfold numberParser.
  assert (numberMatcher (m ++ [c]) = true) as ->.
  { apply numberMatcher_shapes. right; right. by exists m, c. }
  rewrite existsb_app, (decimal_no_eE m Hm). simpl.
  rewrite (unit_not_eE c Hc), last_snoc, Hc. simpl.
  rewrite length_app. simpl.
  replace (length m + 1 - 1) with (length m) by lia.
  by rewrite take_app_length.
Qed.

(** C4.  A numeral that [numberParser] accepts and that ends in a unit
    letter is a decimal followed by that letter, and the result is the
    number read from the decimal, the letter taken off, times ten to the
    power of the letter: -12 for p, -9 for u and for mu alike, -6 for n,
    -3 for m, 3 for k, 6 for M, 9 for G. *)
Theorem suffixed_numeral_scaled s c :
  numberMatcher s = true → last s = Some c → is_unit c = true →
  ∃ power : Z,
    (c, power) ∈ [(ch "p", -12); (ch "u", -9); (mu, -9); (ch "n", -6);
                  (ch "m", -3); (ch "k", 3); (ch "M", 6); (ch "G", 9)]%Z ∧
    decimal (take (length s - 1) s) ∧
    numberParser s
      = times (Number_ (take (length s - 1) s)) (pow10 (lit power)).
Proof.
  intros Hs Hlast Hc.
  destruct (accepted_unit_suffixed s c Hs Hlast Hc) as (m & Hm & ->).
  rewrite (numberParser_suffixed m c Hm Hc).
  rewrite length_app. simpl.
  replace (length m + 1 - 1) with (length m) by lia.
  rewrite take_app_length.
  pose proof (is_unit_cases c Hc) as Hcases. set_unfold in Hcases.
  destruct Hcases as [->|[->|[->|[->|[->|[->|[->|[->|[]]]]]]]]];
    eexists; (split; [|split; [done|reflexivity]]); set_solver.
Qed.

(** C5.  A text that has none of the three shapes, plain decimal,
    scientific, or suffixed, makes [numberParser] return NaN; the
    function has no other way out than returning a number.  So it is for
    ["abc"], ["1x"] and ["--5"]. *)
Theorem unmatched_text_is_NaN :
  (∀ s, ¬ (decimal s ∨ scientific_shape s ∨ suffixed_shape s) →
        numberParser s = NaN) ∧
  numberParser (js "abc") = NaN ∧
  numberParser (js "1x") = NaN ∧
  numberParser (js "--5") = NaN.
Proof.
  split; [|done]. intros s Hs. unfold numberParser.
  destruct (numberMatcher s) eqn:E; [|done].
  by apply numberMatcher_shapes in E.
Qed.

Lemma toRound_NaN origin bits :
  isNaN origin = true →
  toRound origin bits = Throw (Error "(number) cannot run .toRound() on NaN").
Proof. intros E. unfold toRound. by rewrite E. Qed.

End Parser.

Section ExactCodec.
Import Number.

Lemma suffixed_numeral_scaled_witness :
  numberMatcher (js "2.2u") = true ∧
  last (js "2.2u") = Some (ch "u") ∧
  is_unit (ch "u") = true ∧
  ∃ power : Z,
    (ch "u", power) ∈ [(ch "p", -12); (ch "u", -9); (mu, -9); (ch "n", -6);
                       (ch "m", -3); (ch "k", 3); (ch "M", 6); (ch "G", 9)]%Z ∧
    decimal (take (length (js "2.2u") - 1) (js "2.2u")) ∧
    numberParser (js "2.2u")
      = times (Number_ (take (length (js "2.2u") - 1) (js "2.2u")))
            (pow10 (lit power)).
Proof.
  split; [reflexivity|]. split; [reflexivity|]. split; [reflexivity|].
  apply (suffixed_numeral_scaled (H := exact_host)); reflexivity.
Defined.

Lemma unmatched_text_is_NaN_witness :
  ¬ (decimal (js "1x") ∨ scientific_shape (js "1x") ∨ suffixed_shape (js "1x")) ∧
  numberParser (H := exact_host) (js "1x") = ENaN.
Proof.
  assert (Hs : ¬ (decimal (js "1x") ∨ scientific_shape (js "1x") ∨
                  suffixed_shape (js "1x"))).
  { intros E%numberMatcher_shapes. vm_compute in E. discriminate. }
  split; [exact Hs|].
  exact (proj1 (unmatched_text_is_NaN (H := exact_host)) (js "1x") Hs).
Defined.

(** C3.  In exact arithmetic [numberParser] gives 1000 for ["1k"],
    1500000 for ["1.5M"], 0.001 for ["1e-3"] and 3e-12 for ["3p"]; for
    ["2.2u"] it gives 2.2e-9, which is not 0.0000022.  The comment above
    [numberMatcher] reads [1u = 1e-6] and [1n = 1e-9]; the function gives
    1e-9 for ["1u"] and 1e-6 for ["1n"]. *)
Theorem numberParser_representative_values :
  numberParser (js "1k") = dec 1000 0 ∧
  numberParser (js "1.5M") = dec 1500000 0 ∧
  numberParser (js "1e-3") = dec 1 (-3) ∧
  numberParser (js "3p") = dec 3 (-12) ∧
  numberParser (js "2.2u") = dec 22 (-10) ∧
  numberParser (js "2.2u") ≠ dec 22 (-7) ∧
  numberParser (js "1u") = dec 1 (-9) ∧
  numberParser (js "1n") = dec 1 (-6).
Proof.
  split; [reflexivity|]. split; [reflexivity|]. split; [reflexivity|].
  split; [reflexivity|]. split; [reflexivity|].
  split; [vm_compute; discriminate|]. split; reflexivity.
Qed.

(** C9.  In exact arithmetic [toRound] with six digits gives 123457000
    for 123456789, 0.000123457 for 0.0001234567 and -42 for -42, with the
    digit count given or left out; on NaN it throws its error, whatever
    the digit count. *)
Theorem toRound_examples :
  toRound (dec 123456789 0) (Some 6%Z) = Ok (dec 123457000 0) ∧
  toRound (dec 1234567 (-10)) (Some 6%Z) = Ok (dec 123457 (-9)) ∧
  toRound (dec (-42) 0) (Some 6%Z) = Ok (dec (-42) 0) ∧
  toRound (dec 123456789 0) None = Ok (dec 123457000 0) ∧
  toRound (dec 1234567 (-10)) None = Ok (dec 123457 (-9)) ∧
  toRound (dec (-42) 0) None = Ok (dec (-42) 0) ∧
  (∀ bits, toRound ENaN bits
           = Throw (Error "(number) cannot run .toRound() on NaN")).
Proof. repeat split; reflexivity. Qed.

End ExactCodec.


(** * Further properties of the registry *)

(** ** The two patterns *)

Section Patterns.
Import Common Pattern.

Lemma is_underscore_spec c : is_underscore c = true ↔ c = "_"%char.
Proof.
  unfold is_underscore, code. rewrite N.eqb_eq. split.
  - intros H. by rewrite <- (ascii_N_embedding c), H.
  - by intros ->.
Qed.

Lemma span_string_spec p s a b :
  span p s = (a, b) →
  s = a +:+ b ∧ all_chars p a = true ∧
  match b with String c _ => p c = false | EmptyString => True end.
Proof.
  revert a b. induction s as [|c s IH]; intros a b; simpl.
  - by intros [= <- <-].
  - destruct (p c) eqn:Hc.
    + destruct (span p s) as [a' b']. intros [= <- <-].
      destruct (IH a' b' eq_refl) as (-> & ? & ?). simpl. by rewrite Hc.
    + intros [= <- <-]. simpl. by rewrite Hc.
Qed.

Lemma append_empty_r (s : string) : s +:+ EmptyString = s.
Proof.
  induction s as [|c s IH]; [done|].
  change (String c (s +:+ EmptyString) = String c s). by rewrite IH.
Qed.

Lemma nonempty_spec s : nonempty s = true ↔ s ≠ EmptyString.
Proof. by destruct s. Qed.

(** The pattern of [createId] accepts [x] and [x_y], with [x] and [y]
    non-empty and free of underscores, and captures [x]. *)
Lemma match_prefix_spec arg pre :
  match_prefix arg = Some pre ↔
  nonempty pre = true ∧ underscore_free pre = true ∧
  (arg = pre ∨
   ∃ suf, nonempty suf = true ∧ underscore_free suf = true ∧
          arg = pre +:+ "_" +:+ suf).
Proof.
  unfold match_prefix, underscore_free. split.
  - destruct (span _ arg) as [g1 rest] eqn:E1.
    apply span_string_spec in E1 as (-> & Hg1 & Hrest).
    destruct (nonempty g1) eqn:Hne; [|done].
    destruct rest as [|c rest'].
    + intros [= <-]. split; [done|]. split; [done|]. left.
      apply append_empty_r.
    + apply negb_false_iff, is_underscore_spec in Hrest as ->.
      destruct (span _ rest') as [g2 tail] eqn:E2.
      apply span_string_spec in E2 as (-> & Hg2 & _).
      destruct (nonempty g2) eqn:Hne2; [|done].
      destruct tail as [|c tail]; [|done]. simpl. intros [= <-].
      split; [done|]. split; [done|]. right. exists g2.
      split; [done|]. split; [done|]. by rewrite append_empty_r.
  - intros (Hne & Hpre & [->|(suf & Hne' & Hsuf & ->)]).
    + rewrite (span_whole _ pre Hpre). by rewrite Hne.
    + rewrite (span_all _ pre ("_" +:+ suf) Hpre) by done. rewrite Hne.
      change ("_" +:+ suf) with (String "_"%char suf). cbv beta iota.
      rewrite (span_whole _ suf Hsuf). by rewrite Hne'.
Qed.

Lemma is_letter_underscore : is_letter "_" = false.
Proof. done. Qed.

Lemma append_assoc (a b c : string) : (a +:+ b) +:+ c = a +:+ (b +:+ c).
Proof.
  induction a as [|x a IH]; [done|].
  change (String x ((a +:+ b) +:+ c) = String x (a +:+ (b +:+ c))).
  by rewrite IH.
Qed.

Lemma span_append p a x :
  all_chars p a = true → span p (a +:+ x) = ((a +:+ (span p x).1), (span p x).2).
Proof.
  intros Ha. induction a as [|c a IH].
  - change (span p x = ((span p x).1, (span p x).2)). by destruct (span p x).
  - simpl in Ha. apply andb_true_iff in Ha as [Hc Ha].
    change (span p (String c (a +:+ x))
            = (String c (a +:+ (span p x).1), (span p x).2)).
    simpl. by rewrite Hc, (IH Ha).
Qed.

Lemma nonempty_append a b : nonempty a = true → nonempty (a +:+ b) = true.
Proof. by destruct a. Qed.

(** What [token_here] returns is a prefix of the text, made of letters,
    an underscore and letters or digits. *)
Lemma token_here_parts s t :
  token_here s = Some t →
  ∃ L A rest,
    nonempty L = true ∧ all_chars is_letter L = true ∧
    nonempty A = true ∧ all_chars is_alnum A = true ∧
    t = L +:+ String "_" A ∧ s = t +:+ rest.
Proof.
  unfold token_here. destruct (span is_letter s) as [L r] eqn:E.
  apply span_string_spec in E as (-> & HL & _).
  destruct (nonempty L) eqn:HneL; [|done].
  destruct r as [|c r']; [done|].
  destruct (is_underscore c) eqn:Hc; [|done].
  apply is_underscore_spec in Hc as ->.
  destruct (span is_alnum r') as [A r''] eqn:E'.
  apply span_string_spec in E' as (-> & HA & _).
  destruct (nonempty A) eqn:HneA; [|done]. intros [= <-].
  exists L, A, r''. repeat (split; [done|]).
  rewrite append_assoc. done.
Qed.

Lemma parts_exact_form L A :
  nonempty L = true → all_chars is_letter L = true →
  nonempty A = true → all_chars is_alnum A = true →
  exact_form (L +:+ String "_" A).
Proof.
  intros HneL HL HneA HA. unfold exact_form, token_here.
  rewrite (span_all is_letter L (String "_" A) HL) by done.
  rewrite HneL. cbv beta iota.
  change (is_underscore "_") with true. cbv beta iota.
  rewrite (span_whole is_alnum A HA). by rewrite HneA.
Qed.

Lemma token_here_exact s t : token_here s = Some t → exact_form t.
Proof.
  intros (L & A & rest & ? & ? & ? & ? & -> & _)%token_here_parts.
  by apply parts_exact_form.
Qed.

(** A text that starts with an identifier has a token at its start. *)
Lemma token_here_extends t b :
  exact_form t → is_Some (token_here (t +:+ b)).
Proof.
  intros Ht. destruct (token_here_parts t t Ht)
    as (L & A & rest & HneL & HL & HneA & HA & Et & _).
  rewrite Et, append_assoc. unfold token_here.
  rewrite (span_all is_letter L (String "_" A +:+ b) HL) by done.
  rewrite HneL. change (String "_" A +:+ b) with (String "_"%char (A +:+ b)).
  cbv beta iota. change (is_underscore "_") with true. cbv beta iota.
  rewrite (span_append is_alnum A b HA).
  by rewrite (nonempty_append A _ HneA).
Qed.

Lemma match_token_unfold s :
  match_token s =
    match token_here s with
    | Some t => Some t
    | None => match s with
              | EmptyString => None
              | String _ s' => match_token s'
              end
    end.
Proof. by destruct s. Qed.

Lemma match_token_sound s t :
  match_token s = Some t → (∃ a b, s = a +:+ t +:+ b) ∧ exact_form t.
Proof.
  induction s as [|c s IH]; rewrite match_token_unfold.
  - intros H. vm_compute in H. discriminate.
  - destruct (token_here (String c s)) as [t'|] eqn:E.
    + intros [= <-]. split; [|by eapply token_here_exact].
      apply token_here_parts in E as (_ & _ & rest & _ & _ & _ & _ & _ & ->).
      by exists EmptyString, rest.
    + intros [(a & b & ->) ?]%IH. split; [|done]. by exists (String c a), b.
Qed.

Lemma match_token_complete a t b :
  exact_form t → is_Some (match_token (a +:+ t +:+ b)).
Proof.
  intros Ht. induction a as [|c a IH]; rewrite match_token_unfold.
  - change (EmptyString +:+ t +:+ b) with (t +:+ b).
    destruct (token_here_extends t b Ht) as [t' ->]. by eexists.
  - destruct (token_here _); [by eexists|]. exact IH.
Qed.

End Patterns.

(** ** Allocation, further *)

Section AllocatorFurther.
Import Common Pattern.
Implicit Types (m : gmap string bool) (arg pre suf : string) (n k : N).

(** [createId] dereferences a null match, and throws a [TypeError], exactly
    when its argument is neither [x] nor [x_y] with [x] and [y] non-empty
    and free of underscores; it throws nothing else than that and the
    capacity error. *)
Theorem createId_TypeError_iff m arg :
  (createId m arg = Throw TypeError ↔
   ¬ ∃ pre, nonempty pre = true ∧ underscore_free pre = true ∧
            (arg = pre ∨
             ∃ suf, nonempty suf = true ∧ underscore_free suf = true ∧
                    arg = pre +:+ "_" +:+ suf)) ∧
  (∀ e, createId m arg = Throw e → e = TypeError ∨ e = capacity_error) ∧
  createId m arg ≠ OutOfFuel.
Proof.
  destruct (match_prefix arg) as [pre|] eqn:E.
  - pose proof (createId_cases m arg pre E) as H.
    pose proof (proj1 (match_prefix_spec arg pre) E) as Hshape.
    split; [|split].
    + split; [|intros []; by exists pre].
      intros Ht. rewrite Ht in H. by destruct H.
    + intros e He. rewrite He in H. right. by destruct H.
    + intros Ho. by rewrite Ho in H.
  - assert (createId m arg = Throw TypeError) as ->.
    { unfold createId. by rewrite E. }
    split; [|split]; [|intros e [= <-]; by left|done].
    split; [|done]. intros _ (pre & Hpre).
    apply match_prefix_spec in Hpre. congruence.
Qed.

(** Only what precedes the underscore counts: [createId] of [x_y] is
    [createId] of [x]. *)
Theorem createId_ignores_suffix m pre suf :
  nonempty pre = true → underscore_free pre = true →
  nonempty suf = true → underscore_free suf = true →
  createId m (pre +:+ "_" +:+ suf) = createId m pre.
Proof.
  intros H1 H2 H3 H4. unfold createId.
  assert (match_prefix (pre +:+ "_" +:+ suf) = Some pre) as ->.
  { apply match_prefix_spec. repeat (split; [done|]). right. by exists suf. }
  assert (match_prefix pre = Some pre) as ->.
  { apply match_prefix_spec. repeat (split; [done|]). by left. }
  done.
Qed.

Lemma createId_ignores_suffix_witness :
  createId (<["R_1" := true]> ∅) "R_7" = createId (<["R_1" := true]> ∅) "R" ∧
  createId (<["R_1" := true]> ∅) "R_7" = Ok "R_2".
Proof.
  split; [|reflexivity].
  apply (createId_ignores_suffix _ "R" "7"); reflexivity.
Defined.

(** The number [createId] hands out is at most one more than the number
    of entries of the table, its id is not marked, and the capacity error
    needs at least fifty entries. *)
Theorem createId_number_bounded m arg pre :
  match_prefix arg = Some pre →
  (∀ ans, createId m arg = Ok ans →
     ∃ n, ans = candidate pre n ∧ (1 ≤ n ≤ N.of_nat (size m) + 1)%N ∧
          hasId m ans = false) ∧
  (createId m arg = Throw capacity_error → 50 ≤ size m).
Proof.
  intros Hpre. pose proof (createId_cases m arg pre Hpre) as H. split.
  - intros ans E. rewrite E in H. destruct H as (n & (Hn & Hfree & Hused) & _ & ->).
    exists n. split; [done|]. split; [|done]. split; [done|].
    assert (N.to_nat (n - 1) ≤ size m); [|lia].
    apply (used_candidates_bounded m pre). intros j Hj. apply Hused. lia.
  - intros E. rewrite E in H. destruct H as (_ & _ & Hused).
    apply (used_candidates_bounded m pre 50). intros j Hj. apply Hused. lia.
Qed.

Lemma createId_number_bounded_witness :
  match_prefix "line" = Some "line" ∧
  ∃ n, "line_2" = candidate "line" n ∧ (1 ≤ n ≤ 2)%N.
Proof.
  split; [reflexivity|].
  assert (E : createId (<["line_1" := true]> ∅) "line" = Ok "line_2")
    by (vm_compute; reflexivity).
  destruct (proj1 (createId_number_bounded (<["line_1" := true]> ∅)
                     "line" "line" eq_refl) "line_2" E)
    as (n & Hn & Hb & _).
  exists n. split; [exact Hn|exact Hb].
Defined.

(** While nothing is released the numbers go up: after the id that
    [createId] returned has been marked, the next call returns a higher
    number of the same prefix, or throws the capacity error. *)
Theorem createId_numbers_increase m arg pre n :
  match_prefix arg = Some pre →
  createId m arg = Ok (candidate pre n) →
  match createId (markId m (candidate pre n)) arg with
  | Ok ans => ∃ n', ans = candidate pre n' ∧ (n < n')%N
  | Throw e => e = capacity_error ∧ pre ≠ "line"
  | OutOfFuel => False
  end.
Proof.
  intros Hpre E.
  pose proof (createId_cases m arg pre Hpre) as H. rewrite E in H.
  destruct H as (n0 & (Hn & Hfree & Hused) & _ & ->%candidate_inj).
  pose proof (createId_cases (markId m (candidate pre n0)) arg pre Hpre) as H'.
  destruct (createId (markId m (candidate pre n0)) arg) as [ans|e|]; [| |done].
  - destruct H' as (n' & (Hn' & Hfree' & Hused') & _ & ->).
    exists n'. split; [done|].
    destruct (N.lt_trichotomy n0 n') as [?|[->|Hlt]]; [done| |].
    + by rewrite hasId_markId_eq in Hfree'.
    + rewrite hasId_markId_ne in Hfree'.
      * rewrite Hused in Hfree'; [done|lia].
      * intros ?%candidate_inj. lia.
  - by destruct H' as (-> & ? & _).
Qed.

Lemma createId_numbers_increase_witness :
  match_prefix "R" = Some "R" ∧ createId ∅ "R" = Ok (candidate "R" 1) ∧
  ∃ n', createId (markId ∅ (candidate "R" 1)) "R" = Ok (candidate "R" n') ∧
        (1 < n')%N.
Proof.
  split; [reflexivity|]. split; [reflexivity|].
  assert (E : createId ∅ "R" = Ok (candidate "R" 1)) by (vm_compute; reflexivity).
  pose proof (createId_numbers_increase ∅ "R" "R" 1 eq_refl E) as H.
  assert (E' : createId (markId ∅ (candidate "R" 1)) "R" = Ok "R_2")
    by (vm_compute; reflexivity).
  rewrite E' in H |- *.
  destruct H as (n' & Hn' & Hlt). exists n'. split; [|exact Hlt].
  by rewrite <- Hn'.
Defined.

(** A released number is handed out again: after [deleteId] of a numbered
    id within the limit, [createId] succeeds, with a number that is not
    above the one released. *)
Theorem createId_reuses_released m arg pre k :
  match_prefix arg = Some pre →
  (1 ≤ k)%N → (pre = "line" ∨ (k ≤ 50)%N) →
  ∃ n, (1 ≤ n ≤ k)%N ∧
       createId (deleteId m (candidate pre k)).1 arg = Ok (candidate pre n).
Proof.
  intros Hpre Hk Hlim.
  pose proof (createId_cases (deleteId m (candidate pre k)).1 arg pre Hpre) as H.
  pose proof (hasId_deleteId_eq m (candidate pre k)) as Hfree.
  rewrite candidate_not_inherited in Hfree.
  destruct (createId _ arg) as [ans|e|]; [| |done].
  - destruct H as (n & (Hn & _ & Hused) & _ & ->). exists n. split; [|done].
    split; [done|]. destruct (N.le_gt_cases n k) as [?|Hgt]; [done|].
    rewrite Hused in Hfree; [done|lia].
  - destruct H as (_ & Hline & Hused). destruct Hlim as [?|?]; [done|].
    rewrite Hused in Hfree; [done|lia].
Qed.

Lemma createId_reuses_released_witness :
  match_prefix "C" = Some "C" ∧
  ∃ n, (1 ≤ n ≤ 2)%N ∧
       createId (deleteId (<["C_1" := true]> (<["C_2" := true]> ∅))
                   (candidate "C" 2)).1 "C"
         = Ok (candidate "C" n).
Proof.
  split; [reflexivity|].
  apply (createId_reuses_released (<["C_1" := true]> (<["C_2" := true]> ∅))
           "C" "C" 2 eq_refl); [lia|right; lia].
Defined.

(** The table.  Marking twice is marking once.  A release reports
    whether the id read as marked.  After a release an id reads as marked
    exactly if it is a name that every object inherits, so a second
    release reports that and changes nothing.  Marking an id and then
    releasing it, or the other way round, leaves every other id as it
    reads. *)
Theorem mark_release_algebra m a :
  markId (markId m a) a = markId m a ∧
  (deleteId m a).2 = hasId m a ∧
  (deleteId (markId m a) a).2 = true ∧
  hasId (deleteId m a).1 a = inherited a ∧
  deleteId (deleteId m a).1 a = ((deleteId m a).1, inherited a) ∧
  (∀ b, hasId (deleteId (markId m a) a).1 b
        = if decide (a = b) then inherited a else hasId m b) ∧
  (∀ b, hasId (markId (deleteId m a).1 a) b
        = if decide (a = b) then true else hasId m b) ∧
  (∀ b, inherited b = true → hasId m b = true).
Proof.
  split; [apply markId_idemp|]. split; [apply deleteId_returns|].
  split; [by rewrite deleteId_returns, hasId_markId_eq|].
  split; [apply hasId_deleteId_eq|]. split.
  { pose proof (hasId_deleteId_eq m a) as H. unfold hasId in H.
    unfold deleteId at 1. rewrite H. destruct (inherited a) eqn:E; [|done].
    f_equal. unfold deleteId, read. rewrite E, orb_true_r. simpl.
    apply delete_id, lookup_delete_eq. }
  split; [|split]; [intros b; destruct (decide (a = b)) as [<-|Hne]..|].
  - apply hasId_deleteId_eq.
  - by rewrite hasId_deleteId_ne, hasId_markId_ne.
  - apply hasId_markId_eq.
  - by rewrite hasId_markId_ne, hasId_deleteId_ne.
  - intros b Hb. unfold hasId, read. rewrite Hb. apply orb_true_r.
Qed.

End AllocatorFurther.

(** ** The life cycle, further *)

Section LifecycleFurther.
Import Common Pattern.
Context {PartType : Type} (Electronics_pre : PartType → string).
#[local] Abbreviation State := (@State PartType).
#[local] Abbreviation ElectronicCore := (@ElectronicCore PartType).
#[local] Abbreviation CreateEntity := (CreateEntity Electronics_pre).
#[local] Abbreviation exec := (exec Electronics_pre).
#[local] Abbreviation reachable := (reachable Electronics_pre).
Implicit Types (st : State) (o : ElectronicCore) (r this : nat) (X : string).

Lemma elem_of_live_ids st X :
  X ∈ live_ids st ↔ ∃ r o, r ∈ live st ∧ objects st !! r = Some o ∧ id o = X.
Proof.
  unfold live_ids. rewrite list_elem_of_omap. split.
  - intros (r & Hr & (o & Ho & ->)%fmap_Some). by exists r, o.
  - intros (r & o & Hr & Ho & <-). exists r. split; [done|]. by rewrite Ho.
Qed.

(** Table to registry: every id that is marked is carried by a live
    entity or is a name that objects inherit. *)
Lemma marked_carried_exec st c :
  consistent st → calm st → permitted st c →
  (∀ X, hasId (mapHash st) X = true → X ∈ live_ids st ∨ inherited X = true) →
  ∀ X, hasId (mapHash (exec st c)) X = true →
       X ∈ live_ids (exec st c) ∨ inherited X = true.
Proof.
  intros Hc Hcalm Hp HJ X. pose proof Hc as (Hnd & Hm & Hd).
  pose proof Hcalm as (Hs & Hlen & Hw & Hempty & Hown).
  rewrite elem_of_live_ids.
  assert (HJ' : ∀ Y, hasId (mapHash st) Y = true →
            (∃ r o, r ∈ live st ∧ objects st !! r = Some o ∧ id o = Y) ∨
            inherited Y = true).
  { intros Y HY. destruct (HJ Y HY) as [H%elem_of_live_ids|H]; auto. }
  destruct c as [o|this|this newId].
  - destruct (if nonempty (id o) then Ok (id o)
              else createId (mapHash st) (type_prefix Electronics_pre (type o)))
      as [newId|e|] eqn:E.
    + destruct (permitted_new_id Electronics_pre st o newId Hp E)
        as (Hfree & Hne & Hid).
      rewrite (exec_Create_Ok Electronics_pre st o newId Hcalm E Hne Hid).
      unfold set_watcher. intros HX. simpl in HX.
      destruct (decide (newId = X)) as [<-|HneX].
      * left. exists (length (objects st)), (with_id newId o).
        split; [change (length (objects st) ∈ live (registered st o newId));
                apply live_registered; by right|].
        simpl. by rewrite list_lookup_middle.
      * rewrite hasId_markId_ne in HX by done.
        destruct (HJ' X HX) as [(r & o' & Hr & Ho' & <-)|?]; [left|by right].
        exists r, o'.
        split; [change (r ∈ live (registered st o newId));
                apply live_registered; by left|].
        simpl. split; [|done]. by apply lookup_app_l_Some.
    + rewrite (exec_Create_Throw Electronics_pre st o e Hcalm E). simpl.
      intros HX.
      destruct (HJ' X HX) as [(r & o' & Hr & Ho' & <-)|?]; [left|by right].
      exists r, o'. split; [done|]. split; [|done]. by apply lookup_app_l_Some.
    + simpl in E. exfalso. destruct (nonempty (id o)); [done|].
      destruct (match_prefix (type_prefix Electronics_pre (type o)))
        as [pre|] eqn:Hpre.
      * pose proof (createId_cases (mapHash st) _ pre Hpre) as H.
        by rewrite E in H.
      * unfold createId in E. by rewrite Hpre in E.
  - simpl in Hp. rewrite (exec_Destroy Electronics_pre st this Hcalm).
    destruct (Hm this Hp) as (o & Ho & _).
    destruct (beforeDestroy_consistent_effect st this o Hc Hp Ho)
      as (_ & HP' & HL' & Hobj & Hmap).
    unfold DestroyEntity. simpl. rewrite Hmap, Hobj. intros HX.
    assert (X ≠ id o) as Hne.
    { intros ->. rewrite hasId_deleteId_eq in HX.
      by rewrite (Hown this o Hp Ho) in HX. }
    rewrite hasId_deleteId_ne in HX by done.
    destruct (HJ' X HX) as [(r & o' & Hr & Ho' & <-)|?]; [left|by right].
    exists r, o'. split; [|done].
    assert (r ≠ this) by (intros ->; congruence).
    unfold live in *. rewrite elem_of_app, HP', HL'.
    apply elem_of_app in Hr. naive_solver.
  - destruct Hp as (Hthis & _ & Hfree).
    destruct (Hm this Hthis) as (o & Ho & Hused & _).
    rewrite (exec_Rename Electronics_pre st this o newId Hc Hcalm Hthis Ho Hfree).
    simpl. intros HX.
    destruct (decide (newId = X)) as [<-|Hne].
    + left. exists this, (with_id newId o). split; [done|].
      by rewrite list_lookup_alter_eq, Ho.
    + assert (X ≠ id o) as Hne'.
      { intros ->. rewrite hasId_deleteId_eq in HX.
        by rewrite (Hown this o Hthis Ho) in HX. }
      rewrite hasId_deleteId_ne, hasId_markId_ne in HX by done.
      destruct (HJ' X HX) as [(r & o' & Hr & Ho' & <-)|?]; [left|by right].
      exists r, o'. split; [done|]. split; [|done].
      rewrite list_lookup_alter_ne; [done|]. intros ->. congruence.
Qed.

Lemma reachable_marked_carried st :
  reachable st →
  ∀ X, hasId (mapHash st) X = true → X ∈ live_ids st ∨ inherited X = true.
Proof.
  induction 1 as [|st c Hst IH Hp].
  - intros X HX. right. unfold hasId, read in HX. simpl in HX.
    by rewrite lookup_empty in HX.
  - destruct (reachable_invariant Electronics_pre st Hst) as [Hc Hcalm].
    by apply marked_carried_exec.
Qed.

(** Lock-step: after any sequence of permitted calls, each followed by
    its tick, an id reads as marked exactly when a live entity carries it
    or it is a name that every object inherits; and no live entity
    carries such a name. *)
Theorem reachable_lockstep st X :
  reachable st →
  (hasId (mapHash st) X = true ↔ X ∈ live_ids st ∨ inherited X = true) ∧
  (X ∈ live_ids st → inherited X = false).
Proof.
  intros Hst. destruct (reachable_invariant Electronics_pre st Hst) as [Hc Hcalm].
  destruct Hc as (_ & Hm & _). destruct Hcalm as (_ & _ & _ & _ & Hown).
  split; [split|].
  - by apply reachable_marked_carried.
  - intros [(r & o & Hr & Ho & <-)%elem_of_live_ids|Hi].
    + destruct (Hm r Hr) as (o' & Ho' & Hused & _). congruence.
    + unfold hasId, read. rewrite Hi. apply orb_true_r.
  - intros (r & o & Hr & Ho & <-)%elem_of_live_ids. by eapply Hown.
Qed.

(** Each registry holds entities of its kind only, and no entity twice
    or in both. *)
Theorem reachable_registries_by_kind st :
  reachable st →
  NoDup (PartComponents st ++ LineComponents st) ∧
  (∀ r, r ∈ PartComponents st →
        ∃ o t, objects st !! r = Some o ∧ type o = Part t) ∧
  (∀ r, r ∈ LineComponents st →
        ∃ o, objects st !! r = Some o ∧ type o = Line).
Proof.
  intros Hst. destruct (reachable_consistent _ st Hst) as (Hnd & Hm & _).
  split; [done|]. split.
  - intros r Hr. destruct (Hm r) as (o & Ho & _ & HP & _).
    { apply elem_of_app. by left. }
    specialize (HP Hr). destruct (type o) as [|t] eqn:E; [done|]. by exists o, t.
  - intros r Hr. destruct (Hm r) as (o & Ho & _ & _ & HL).
    { apply elem_of_app. by right. }
    specialize (HL Hr). destruct (type o) as [|t] eqn:E; [|done]. by exists o.
Qed.

Lemma find_snoc {A : Type} (p : A → bool) (l : list A) y :
  (∀ x, x ∈ l → p x = false) → p y = true → find p (l ++ [y]) = Some y.
Proof.
  induction l as [|z l IH]; intros Hl Hy; simpl.
  - by rewrite Hy.
  - rewrite (Hl z) by by left. apply IH; [|done]. intros x Hx. apply Hl. by right.
Qed.

(** Create, then look up: an entity created under an id that no live
    entity carries is what the finder of its kind returns for that id,
    the part finder provided the id has the identifier format. *)
Theorem create_then_find st o st1 this X :
  CreateEntity st o = Ok (st1, this) →
  id <$> objects st1 !! this = Some X →
  carried_by_none st X →
  (type o = Line → findLineComponent st1 (KString X) = Ok this) ∧
  (∀ t, type o = Part t → exact_form X →
        findPartComponent st1 (KString X) = Ok this).
Proof.
  rewrite CreateEntity_unfold.
  destruct (if nonempty (id o) then _ else _) as [newId| |]; [|done..].
  simpl. intros [= <- <-]. rewrite lookup_registered_new. intros [= <-] Hfresh.
  assert (Hold : ∀ r, r ∈ live st → id_is (registered st o newId) newId r = false).
  { intros r Hr. destruct (Hfresh r Hr) as (o' & Ho' & Hne).
    apply not_true_iff_false. intros (o'' & Ho'' & Hid)%id_is_true.
    rewrite lookup_registered_old in Ho'' by by eapply lookup_lt_Some.
    congruence. }
  assert (Hnew : id_is (registered st o newId) newId (length (objects st)) = true).
  { apply id_is_true. exists (with_id newId o). by rewrite lookup_registered_new. }
  split.
  - intros Hty. unfold findLineComponent.
    assert (LineComponents (registered st o newId)
            = LineComponents st ++ [length (objects st)]) as ->
      by (simpl; by rewrite Hty).
    rewrite find_snoc; [done| |done]. intros r Hr. apply Hold, elem_of_app. by right.
  - intros t Hty ->%match_token_exact. unfold findPartComponent.
    assert (PartComponents (registered st o newId)
            = PartComponents st ++ [length (objects st)]) as ->
      by (simpl; by rewrite Hty).
    rewrite find_snoc; [done| |done]. intros r Hr. apply Hold, elem_of_app. by left.
Qed.

(** [DestroyEntity] of a live entity, in a state reached by permitted
    calls each followed by its tick, releases its id and no other, takes
    that entity and no other out of the registries and leaves every
    object as it is; the tick that follows changes nothing, and running
    the hook a second time changes nothing. *)
Theorem destroy_removes_exactly_one st this o :
  reachable st → this ∈ live st → objects st !! this = Some o →
  hasId (mapHash (DestroyEntity st this)) (id o) = false ∧
  (∀ X, X ≠ id o →
        hasId (mapHash (DestroyEntity st this)) X = hasId (mapHash st) X) ∧
  (∀ r, r ∈ live (DestroyEntity st this) ↔ r ∈ live st ∧ r ≠ this) ∧
  objects (DestroyEntity st this) = objects st ∧
  flush (DestroyEntity st this) = DestroyEntity st this ∧
  DestroyEntity (DestroyEntity st this) this = DestroyEntity st this.
Proof.
  intros Hst Hthis Ho.
  destruct (reachable_invariant Electronics_pre st Hst) as [Hc Hcalm].
  pose proof Hc as (Hnd & Hm & Hd).
  pose proof Hcalm as (Hs & Hlen & Hw & Hempty & Hown).
  destruct (beforeDestroy_consistent_effect st this o Hc Hthis Ho)
    as (_ & HP' & HL' & Hobj & Hmap).
  assert (Hlive : ∀ r, r ∈ live (DestroyEntity st this) ↔ r ∈ live st ∧ r ≠ this).
  { intros r. unfold DestroyEntity, live. simpl. rewrite !elem_of_app, HP', HL'.
    naive_solver. }
  assert (Hfree : hasId (mapHash (beforeDestroy st this)) (id o) = false).
  { rewrite Hmap, hasId_deleteId_eq. by eapply Hown. }
  split; [exact Hfree|].
  split; [intros X HX; unfold DestroyEntity; simpl; rewrite Hmap;
          by apply hasId_deleteId_ne|].
  split; [done|]. split; [done|].
  split; [by apply flush_DestroyEntity|].
  set (st' := beforeDestroy st this) in *.
  assert (Hnone : ∀ r, r ∈ live st' → id_is st' (id o) r = false).
  { intros r Hr. assert (r ∈ live st ∧ r ≠ this) as [Hr' Hne] by by apply Hlive.
    apply not_true_iff_false.
    intros (o' & Ho' & Hid)%id_is_true. rewrite Hobj in Ho'.
    apply Hne. by apply (Hd r this o' o). }
  unfold DestroyEntity. fold st'.
  assert (beforeDestroy (set_watcher st' this None) this
          = set_watcher st' this None) as ->.
  { unfold beforeDestroy at 1. simpl. rewrite Hobj, Ho.
    rewrite (deleteId_unmarked _ _ Hfree). simpl.
    assert (Hno : ∀ l, (∀ r, r ∈ l → r ∈ live st') →
              array_delete (id_is (set_watcher st' this None) (id o)) l = l).
    { intros l Hl. apply array_delete_none. intros r Hr. by apply Hnone, Hl. }
    rewrite !Hno.
    - unfold set_watcher. rewrite Hobj. by destruct (is_line (type o)).
    - intros r Hr. apply elem_of_app. by left.
    - intros r Hr. apply elem_of_app. by right. }
  unfold set_watcher. simpl. f_equal. apply list_insert_insert_eq.
Qed.

Lemma RenameEntity_eq st this o B :
  settled st → objects st !! this = Some o →
  watchers st !! this = Some (Some (id o)) → B ≠ id o →
  RenameEntity st this B =
    {| mapHash := (deleteId (markId (mapHash st) B) (id o)).1;
       PartComponents := PartComponents st;
       LineComponents := LineComponents st;
       objects := alter (with_id B) this (objects st);
       watchers := <[this := Some B]> (watchers st) |}.
Proof. apply RenameEntity_changed. Qed.

(** Renaming to a free id and back, no assignment waiting at the start,
    restores every object, both registries, every watcher and every
    reading of the table, whether a tick follows each assignment or one
    tick follows both. *)
Theorem rename_there_and_back st this o B :
  settled st → objects st !! this = Some o →
  hasId (mapHash st) (id o) = true → hasId (mapHash st) B = false →
  objects (RenameEntity (RenameEntity st this B) this (id o)) = objects st ∧
  PartComponents (RenameEntity (RenameEntity st this B) this (id o))
    = PartComponents st ∧
  LineComponents (RenameEntity (RenameEntity st this B) this (id o))
    = LineComponents st ∧
  (∀ X, hasId (mapHash (RenameEntity (RenameEntity st this B) this (id o))) X
        = hasId (mapHash st) X) ∧
  watchers (RenameEntity (RenameEntity st this B) this (id o)) = watchers st ∧
  flush (set_id (set_id st this B) this (id o)) = st.
Proof.
  intros Hs Ho HA HB. assert (B ≠ id o) as Hne by congruence.
  assert (Hobj : alter (with_id (id o)) this (alter (with_id B) this (objects st))
                 = objects st).
  { apply list_eq. intros j. destruct (decide (j = this)) as [->|Hj].
    - rewrite !list_lookup_alter_eq, Ho. simpl. by destruct o.
    - by rewrite !list_lookup_alter_ne. }
  assert (Hback : set_id (set_id st this B) this (id o) = st).
  { destruct st as [m P L ob w]. unfold set_id. simpl in *. by rewrite Hobj. }
  assert (Hidle : (∀ v, watchers st !! this ≠ Some (Some v)) →
            RenameEntity (RenameEntity st this B) this (id o) = st).
  { intros Hw. unfold RenameEntity.
    rewrite (flush_settled (set_id st this B)).
    - rewrite Hback. by apply flush_settled.
    - intros r o' v. simpl. destruct (decide (r = this)) as [->|].
      + intros _ Hv. by destruct (Hw v).
      + rewrite list_lookup_alter_ne by done. apply Hs. }
  destruct (watchers st !! this) as [[v|]|] eqn:Hw;
    [|rewrite Hidle by done; rewrite Hback;
      (repeat split; [done..|by apply flush_settled])..].
  assert (v = id o) as -> by by eapply Hs.
  clear Hidle.
  assert (Hlt : this < length (watchers st)) by by eapply lookup_lt_Some.
  rewrite (RenameEntity_eq st this o B Hs Ho Hw Hne).
  set (st1 := Build_State _ _ _ _ _).
  assert (Hs1 : settled st1).
  { intros r o' v. unfold st1. simpl. destruct (decide (r = this)) as [->|].
    - rewrite list_lookup_alter_eq, Ho, list_lookup_insert_eq by done.
      by intros [= <-] [= <-].
    - rewrite list_lookup_alter_ne, list_lookup_insert_ne by done. apply Hs. }
  assert (Ho1 : objects st1 !! this = Some (with_id B o)).
  { unfold st1. simpl. by rewrite list_lookup_alter_eq, Ho. }
  assert (Hw1 : watchers st1 !! this = Some (Some (id (with_id B o)))).
  { unfold st1. simpl. by rewrite list_lookup_insert_eq. }
  rewrite (RenameEntity_eq st1 this (with_id B o) (id o) Hs1 Ho1 Hw1)
    by (simpl; congruence).
  unfold st1. simpl.
  split; [done|]. split; [done|]. split; [done|]. split; [|split].
  - intros X. destruct (decide (X = B)) as [->|HXB].
    + by rewrite hasId_deleteId_eq, HB, (proj2 (hasId_false _ _ HB)).
    + rewrite hasId_deleteId_ne by done.
      destruct (decide (X = id o)) as [->|HXA].
      * by rewrite hasId_markId_eq, HA.
      * rewrite hasId_markId_ne, hasId_deleteId_ne, hasId_markId_ne by done. done.
  - rewrite list_insert_insert_eq. by apply list_insert_id.
  - rewrite Hback. by apply flush_settled.
Qed.

(** In a state reached by permitted calls a lookup by id answers with
    exactly the registered entity of that id: the wire whose id is the
    text, the part whose id is the token of the text. *)
Theorem find_by_id_exact st s r :
  reachable st →
  (findLineComponent st (KString s) = Ok r ↔
   r ∈ LineComponents st ∧ id <$> objects st !! r = Some s) ∧
  (findPartComponent st (KString s) = Ok r ↔
   ∃ tok, match_token s = Some tok ∧
          r ∈ PartComponents st ∧ id <$> objects st !! r = Some tok).
Proof.
  intros Hst. destruct (reachable_consistent _ st Hst) as (Hnd & Hm & Hd).
  assert (Huniq : ∀ l X y, (∀ x, x ∈ l → x ∈ live st) → r ∈ l →
            id <$> objects st !! r = Some X →
            find (id_is st X) l = Some y → y = r).
  { intros l X y Hl Hr (o & Ho & ->)%fmap_Some Hy.
    apply find_some in Hy as [Hy%list_elem_of_In (o' & Ho' & Hid)%id_is_true].
    by apply (Hd y r o' o); auto. }
  assert (Hfound : ∀ l X, r ∈ l → id <$> objects st !! r = Some X →
            is_Some (find (id_is st X) l)).
  { intros l X Hr (o & Ho & ->)%fmap_Some.
    destruct (find_some_first (id_is st (id o)) l r Hr) as (y & -> & _); [|done].
    apply id_is_true. eauto. }
  split; split.
  - apply findLineComponent_raw.
  - intros [Hr Hid]. unfold findLineComponent.
    destruct (Hfound _ _ Hr Hid) as [y Hy]. rewrite Hy. f_equal.
    eapply Huniq; [|done..]. intros x Hx. apply elem_of_app. by right.
  - unfold findPartComponent. destruct (match_token s) as [tok|]; [|done].
    destruct (find _ _) as [y|] eqn:E; [|done]. intros [= ->].
    apply find_some in E as [Hin Hp]. exists tok. split; [done|].
    split; [by apply list_elem_of_In|].
    unfold id_is in Hp. by apply bool_decide_eq_true in Hp.
  - intros (tok & Htok & Hr & Hid). unfold findPartComponent. rewrite Htok.
    destruct (Hfound _ _ Hr Hid) as [y Hy]. rewrite Hy. f_equal.
    eapply Huniq; [|done..]. intros x Hx. apply elem_of_app. by left.
Qed.

(** The part finder throws a [TypeError], not its own error, exactly when
    the text contains no identifier: no letters, an underscore, letters or
    digits in a row.  The token it looks for is such an identifier taken
    from the text, and extracting from the token gives the token. *)
Theorem findPartComponent_TypeError_iff st s :
  (findPartComponent st (KString s) = Throw TypeError ↔
   ¬ ∃ a t b, s = a +:+ t +:+ b ∧ exact_form t) ∧
  (∀ t, match_token s = Some t →
        (∃ a b, s = a +:+ t +:+ b) ∧ exact_form t ∧ match_token t = Some t).
Proof.
  split.
  - unfold findPartComponent. destruct (match_token s) as [t|] eqn:E.
    + destruct (match_token_sound s t E) as [(a & b & Hs) Ht].
      split; [by destruct (find _ _)|]. intros []. by exists a, t, b.
    + split; [|done]. intros _ (a & t & b & -> & Ht).
      destruct (match_token_complete a t b Ht) as [? ?]. congruence.
  - intros t E. destruct (match_token_sound s t E) as [? Ht].
    split; [done|]. split; [done|]. by apply match_token_exact.
Qed.

End LifecycleFurther.

(** ** The life cycle on the sample catalog *)

Section SampleFurther.
Import Common Sample.

Lemma reachable_lockstep_witness :
  reachable Electronics_pre (run session) ∧
  ((hasId (mapHash (run session)) "w_7" = true
    ↔ "w_7" ∈ live_ids (run session) ∨ inherited "w_7" = true) ∧
   ("w_7" ∈ live_ids (run session) → inherited "w_7" = false)) ∧
  ((hasId (mapHash (run session)) "valueOf" = true
    ↔ "valueOf" ∈ live_ids (run session) ∨ inherited "valueOf" = true) ∧
   ("valueOf" ∈ live_ids (run session) → inherited "valueOf" = false)).
Proof.
  split; [apply session_reachable|].
  split; apply (reachable_lockstep Electronics_pre), session_reachable.
Defined.

Lemma reachable_registries_by_kind_witness :
  reachable Electronics_pre (run session) ∧
  PartComponents (run session) = [0; 3] ∧ LineComponents (run session) = [2] ∧
  ∀ r, r ∈ LineComponents (run session) →
       ∃ o, objects (run session) !! r = Some o ∧ type o = Line.
Proof.
  split; [apply session_reachable|]. split; [reflexivity|]. split; [reflexivity|].
  apply (reachable_registries_by_kind Electronics_pre), session_reachable.
Defined.

Lemma create_then_find_witness :
  CreateEntity Electronics_pre (run one_part) (part capacitor EmptyString)
    = Ok (registered (run one_part) (part capacitor EmptyString) "C_1", 1) ∧
  carried_by_none (run one_part) "C_1" ∧
  findPartComponent
    (registered (run one_part) (part capacitor EmptyString) "C_1") (KString "C_1")
    = Ok 1.
Proof.
  assert (Hc : CreateEntity Electronics_pre (run one_part) (part capacitor EmptyString)
               = Ok (registered (run one_part) (part capacitor EmptyString) "C_1", 1))
    by reflexivity.
  assert (Hfresh : carried_by_none (run one_part) "C_1").
  { apply marked_carried_by_none; [apply one_part_registered_marked|reflexivity]. }
  split; [exact Hc|]. split; [exact Hfresh|].
  apply (proj2 (create_then_find Electronics_pre _ _ _ _ "C_1" Hc eq_refl Hfresh)
           capacitor); reflexivity.
Defined.

Lemma destroy_removes_exactly_one_witness :
  reachable Electronics_pre (run session) ∧
  3 ∈ live (run session) ∧
  objects (run session) !! 3 = Some (part resistance "R_1") ∧
  hasId (mapHash (DestroyEntity (run session) 3)) "R_1" = false ∧
  DestroyEntity (DestroyEntity (run session) 3) 3 = DestroyEntity (run session) 3.
Proof.
  assert (Hl : 3 ∈ live (run session)).
  { apply list_elem_of_In. vm_compute. auto. }
  split; [apply session_reachable|]. split; [exact Hl|]. split; [reflexivity|].
  destruct (destroy_removes_exactly_one Electronics_pre (run session) 3
              (part resistance "R_1") session_reachable Hl eq_refl)
    as (H1 & _ & _ & _ & _ & H5).
  split; [exact H1 | exact H5].
Defined.

Lemma rename_there_and_back_witness :
  settled (run one_part) ∧
  objects (run one_part) !! 0 = Some (part resistance "R_1") ∧
  hasId (mapHash (run one_part)) "R_1" = true ∧
  hasId (mapHash (run one_part)) "R_5" = false ∧
  objects (RenameEntity (RenameEntity (run one_part) 0 "R_5") 0 "R_1")
    = objects (run one_part) ∧
  flush (set_id (set_id (run one_part) 0 "R_5") 0 "R_1") = run one_part.
Proof.
  split; [apply one_part_settled|].
  split; [reflexivity|]. split; [reflexivity|]. split; [reflexivity|].
  destruct (rename_there_and_back (run one_part) 0 (part resistance "R_1") "R_5"
              one_part_settled eq_refl eq_refl eq_refl)
    as (H1 & _ & _ & _ & _ & H6).
  split; [exact H1 | exact H6].
Defined.

Lemma find_by_id_exact_witness :
  reachable Electronics_pre (run session) ∧
  (findLineComponent (run session) (KString "w_7") = Ok 2 ↔
   2 ∈ LineComponents (run session) ∧
   id <$> objects (run session) !! 2 = Some "w_7") ∧
  findLineComponent (run session) (KString "w_7") = Ok 2.
Proof.
  split; [apply session_reachable|].
  split; [|reflexivity].
  apply (find_by_id_exact Electronics_pre (run session) "w_7" 2), session_reachable.
Defined.

End SampleFurther.

(** * Further properties of the numeric codec *)

(** ** Taking a numeral apart *)

Section SplitNumber.
Import Number.
Implicit Types (s m str num : list N) (c : N).

Lemma is_rank_unit c : is_rank c = true ↔ is_unit c = true ∧ c ≠ mu.
Proof.
  unfold is_rank, is_unit. simpl. rewrite !orb_true_iff, !N.eqb_eq.
  unfold mu, ch. simpl. split.
  - intros H. split; [tauto|]. intros ->. repeat destruct H as [H|H]; done.
  - intros [H Hne]. tauto.
Qed.

Lemma is_rank_not_digit_or_dot c : is_rank c = true → is_digit_or_dot c = false.
Proof.
  intros [H _]%is_rank_unit. destruct (continues_not_digit c) as [Hd Hdot].
  { by right. }
  unfold is_digit_or_dot. rewrite Hd. by apply N.eqb_neq.
Qed.

Lemma digits_digit_or_dot d :
  forallb is_digit d = true → forallb is_digit_or_dot d = true.
Proof.
  induction d as [|c d IH]; simpl; [done|].
  intros [Hc Hd]%andb_true_iff. unfold is_digit_or_dot at 1. rewrite Hc. auto.
Qed.

Lemma decimal_digit_or_dot m :
  decimal m → m ≠ [] ∧ forallb is_digit_or_dot m = true.
Proof.
  intros (int & [Hne Hint] & [->|(frac & [_ Hfrac] & ->)]).
  - split; [done|]. by apply digits_digit_or_dot.
  - split; [by destruct int|]. rewrite forallb_app. simpl.
    rewrite !digits_digit_or_dot by done. done.
Qed.

Lemma matcher_exec_parts num r :
  num ≠ [] → forallb is_digit_or_dot num = true →
  match r with c :: _ => is_digit_or_dot c = false | [] => True end →
  matcher_exec (num ++ r) =
    match r with
    | [] => Some (num, [])
    | [c] => if is_rank c then Some (num, [c]) else None
    | _ => None
    end.
Proof.
  intros Hne Hnum Hr. unfold matcher_exec.
  rewrite (span_app _ _ _ Hnum Hr). by apply nonempty_true in Hne as ->.
Qed.

(** [splitNumber] returns the two parts of a text made of digits and
    dots, at least one, with at most one of the letters G, M, k, m, u, n,
    p after them: the text is the first part followed by the second.  For
    every other text it throws, and the message ends in the text. *)
Theorem splitNumber_reassembles str :
  match splitNumber str with
  | Returns r =>
      str = number_of r ++ rank_of r ∧
      number_of r ≠ [] ∧ forallb is_digit_or_dot (number_of r) = true ∧
      (rank_of r = [] ∨ ∃ c, is_rank c = true ∧ rank_of r = [c])
  | ThrowsError message =>
      message = js "Number Error: " ++ str ∧
      ¬ ∃ num r, num ≠ [] ∧ forallb is_digit_or_dot num = true ∧
                 (r = [] ∨ ∃ c, is_rank c = true ∧ r = [c]) ∧
                 str = num ++ r
  end.
Proof.
  assert (Hno : matcher_exec str = None →
            ¬ ∃ num r, num ≠ [] ∧ forallb is_digit_or_dot num = true ∧
                       (r = [] ∨ ∃ c, is_rank c = true ∧ r = [c]) ∧
                       str = num ++ r).
  { intros E (num & r & Hne & Hnum & Hr & ->).
    rewrite matcher_exec_parts in E; [|done..|].
    - by destruct Hr as [->|(c & Hc & ->)]; [|rewrite Hc in E].
    - destruct Hr as [->|(c & Hc & ->)]; [done|].
      by apply is_rank_not_digit_or_dot. }
  unfold splitNumber. destruct (matcher_exec str) as [[g1 g2]|] eqn:E;
    [|split; [done|by apply Hno]].
  clear Hno. unfold matcher_exec in E.
  destruct (span is_digit_or_dot str) as [num rest] eqn:Es.
  apply span_spec in Es as (-> & Hnum & _).
  destruct (nonempty num) eqn:Hne; [|done]. apply nonempty_true in Hne.
  destruct rest as [|c [|??]]; [| |done].
  - injection E as <- <-. simpl. auto.
  - destruct (is_rank c) eqn:Hc; [|done]. injection E as <- <-. simpl.
    split; [done|]. split; [done|]. split; [done|]. right. by exists c.
Qed.

(** Of the texts that [numberMatcher] accepts, [splitNumber] takes the
    plain decimals and the decimals with a unit letter other than mu
    apart; a decimal with the letter mu and every numeral in scientific
    notation make it throw.  It also takes texts apart that
    [numberMatcher] rejects. *)
Theorem splitNumber_on_accepted :
  (∀ s, decimal s →
        splitNumber s = Returns {| number_of := s; rank_of := [] |}) ∧
  (∀ m c, decimal m → is_unit c = true → c ≠ mu →
        splitNumber (m ++ [c]) = Returns {| number_of := m; rank_of := [c] |}) ∧
  (∀ m, decimal m →
        numberMatcher (m ++ [mu]) = true ∧
        splitNumber (m ++ [mu]) = ThrowsError (js "Number Error: " ++ m ++ [mu])) ∧
  (∀ s, scientific_shape s →
        numberMatcher s = true ∧
        splitNumber s = ThrowsError (js "Number Error: " ++ s)) ∧
  numberMatcher (js "1..2") = false ∧
  splitNumber (js "1..2") = Returns {| number_of := js "1..2"; rank_of := [] |}.
Proof.
  split; [|split; [|split; [|split; [|done]]]].
  - intros s [Hne Hs]%decimal_digit_or_dot. unfold splitNumber.
    rewrite <- (app_nil_r s) at 1. by rewrite matcher_exec_parts.
  - intros m c [Hne Hm]%decimal_digit_or_dot Hc Hmu.
    assert (is_rank c = true) as Hr by by apply is_rank_unit.
    unfold splitNumber. rewrite matcher_exec_parts; [|done..|].
    + by rewrite Hr.
    + by apply is_rank_not_digit_or_dot.
  - intros m Hm. split.
    { apply numberMatcher_shapes. right; right. by exists m, mu. }
    destruct (decimal_digit_or_dot m Hm) as [Hne Hd].
    unfold splitNumber. by rewrite matcher_exec_parts.
  - intros s Hs. split.
    { apply numberMatcher_shapes. right; by left. }
    destruct Hs as (m & c & e & Hm & Hc & [Hne He] & Hs).
    destruct (decimal_digit_or_dot m Hm) as [Hne' Hd].
    assert (Hcd : is_digit_or_dot c = false).
    { destruct (continues_not_digit c) as [H1 H2]; [by left|].
      unfold is_digit_or_dot. rewrite H1. by apply N.eqb_neq. }
    unfold splitNumber. destruct Hs as [-> | ->].
    + rewrite matcher_exec_parts by done. by destruct e.
    + by rewrite matcher_exec_parts.
Qed.

(** [createSelectList] makes one option per unit, in the order given, the
    letter mu replaced by u, and the first signature is the second at the
    eight units from G down to p.  Every option carries a unit that
    [numberMatcher] accepts after a digit and that [splitNumber] gives
    back as the rank, which it does not for mu; its label is the unit, or
    the entry of [unitMap] for it, which exists, followed by the label
    given. *)
Theorem createSelectList_offers_splittable args o :
  o ∈ createSelectList args →
  value o ≠ rank_mu ∧
  numberMatcher (js "1" ++ rank_string (value o)) = true ∧
  splitNumber (js "1" ++ rank_string (value o))
    = Returns {| number_of := js "1"; rank_of := rank_string (value o) |} ∧
  splitNumber (js "1" ++ rank_string rank_mu)
    = ThrowsError (js "Number Error: 1" ++ [mu]) ∧
  (∃ pre, (pre = rank_string (value o) ∨ unitMap (value o) = Some pre) ∧
          label o = pre ++ match args with
                           | OfLabel l _ | OfUnits _ l _ => l
                           end) ∧
  value <$> createSelectList args
    = match args with
      | OfLabel _ _ => [rank_G; rank_M; rank_k; rank_none; rank_m; rank_u;
                        rank_n; rank_p]
      | OfUnits units _ _ =>
          (λ unit, if decide (unit = rank_mu) then rank_u else unit) <$> units
      end.
Proof.
  intros Ho.
  assert (Hval : value <$> createSelectList args
    = match args with
      | OfLabel _ _ => [rank_G; rank_M; rank_k; rank_none; rank_m; rank_u;
                        rank_n; rank_p]
      | OfUnits units _ _ =>
          (λ unit, if decide (unit = rank_mu) then rank_u else unit) <$> units
      end).
  { destruct args as [l f|units l f]; [done|].
    unfold createSelectList. rewrite <- list_fmap_compose.
    generalize ((λ unit, if decide (unit = rank_mu) then rank_u else unit)
                  <$> units).
    intros us. induction us as [|u us IH]; [done|]. simpl. by f_equal. }
  assert (Hmu : value o ≠ rank_mu).
  { assert (value o ∈ value <$> createSelectList args) as Hin
      by by apply list_elem_of_fmap_2.
    rewrite Hval in Hin. destruct args as [l f|units l f].
    - intros E. rewrite E in Hin. set_solver.
    - apply list_elem_of_fmap in Hin as (u & -> & _). by destruct (decide _). }
  split; [done|]. split; [by destruct (value o)|].
  split; [by destruct (value o)|]. split; [done|]. split; [|done].
  assert (Hl : ∃ unit isChinese l,
             l = match args with OfLabel l _ | OfUnits _ l _ => l end ∧
             o = {| label := if isChinese : bool
                             then template (unitMap unit) ++ l
                             else rank_string unit ++ l;
                    value := unit |}).
  { destruct args as [l f|units l f]; unfold createSelectList in Ho;
      apply list_elem_of_fmap in Ho as (u & -> & _); eauto. }
  destruct Hl as (unit & isChinese & l & <- & ->). simpl in *.
  destruct isChinese; [|eauto].
  destruct (unitMap unit) as [pre|] eqn:E; [eauto|by destruct unit].
Qed.

Lemma createSelectList_offers_splittable_witness :
  {| label := [24494%N] ++ js "F"; value := rank_u |}
    ∈ createSelectList (OfUnits [rank_mu; rank_p] (js "F") (Some true)) ∧
  splitNumber (js "1u") = Returns {| number_of := js "1"; rank_of := js "u" |}.
Proof.
  assert (Ho : {| label := [24494%N] ++ js "F"; value := rank_u |}
    ∈ createSelectList (OfUnits [rank_mu; rank_p] (js "F") (Some true))).
  { apply list_elem_of_In. vm_compute. auto. }
  split; [exact Ho|].
  exact (proj1 (proj2 (proj2 (createSelectList_offers_splittable _ _ Ho)))).
Defined.

End SplitNumber.

(** ** The branches of [numberParser] *)

Section ParserBranches.
Import Number.
Context `{Host}.
Implicit Types (s m e : list N) (c : N).

Lemma split_eE_none s : existsb is_eE s = false → split_eE s = [s].
Proof.
  induction s as [|c s IH]; simpl; [done|].
  intros [-> Hs]%orb_false_iff. by rewrite IH.
Qed.

Lemma split_eE_one m c e :
  existsb is_eE m = false → is_eE c = true → existsb is_eE e = false →
  split_eE (m ++ c :: e) = [m; e].
Proof.
  intros Hm Hc He. induction m as [|x m IH]; simpl.
  - by rewrite Hc, split_eE_none.
  - simpl in Hm. apply orb_false_iff in Hm as [-> Hm]. by rewrite IH.
Qed.

Lemma numberParser_scientific m c e :
  decimal m → is_eE c = true → forallb is_digit e = true →
  numberMatcher (m ++ c :: e) = true →
  numberParser (m ++ c :: e) = times (Number_ m) (pow10 (Number_ e)) ∧
  (numberMatcher (m ++ c :: ch "-" :: e) = true →
   numberParser (m ++ c :: ch "-" :: e)
     = times (Number_ m) (pow10 (Number_ (ch "-" :: e)))).
Proof.
  intros Hm Hc He Hacc. unfold numberParser. rewrite Hacc. simpl.
  rewrite !existsb_app. simpl. rewrite Hc, !orb_true_r.
  split; [|intros ->; simpl].
  - rewrite split_eE_one; [done|by apply decimal_no_eE|done|by apply digits_no_eE].
  - rewrite split_eE_one; [done|by apply decimal_no_eE|done|].
    simpl. by apply digits_no_eE.
Qed.

(** [numberParser] by the shape of the text: a plain decimal is given
    to [Number] as it is; a numeral in scientific notation is cut at its
    letter e, and the result is [Number] of what precedes it times ten
    to [Number] of what follows it, the minus sign included. *)
Theorem numberParser_by_shape :
  (∀ s, decimal s → numberParser s = Number_ s) ∧
  (∀ m c e, decimal m → is_eE c = true → digits e →
     numberParser (m ++ c :: e) = times (Number_ m) (pow10 (Number_ e)) ∧
     numberParser (m ++ c :: ch "-" :: e)
       = times (Number_ m) (pow10 (Number_ (ch "-" :: e)))).
Proof.
  split.
  - intros s Hs. unfold numberParser.
    assert (numberMatcher s = true) as ->.
    { apply numberMatcher_shapes. by left. }
    simpl. rewrite (decimal_no_eE s Hs).
    destruct (decimal_last s Hs) as (s' & x & -> & Hx).
    rewrite last_snoc.
    destruct (is_unit x) eqn:Hu; [|done].
    destruct (continues_not_digit x); [by right|congruence].
  - intros m c e Hm Hc He.
    assert (H1 : numberMatcher (m ++ c :: e) = true).
    { apply numberMatcher_shapes. right; left. exists m, c, e. auto. }
    assert (H2 : numberMatcher (m ++ c :: ch "-" :: e) = true).
    { apply numberMatcher_shapes. right; left. exists m, c, e. auto. }
    destruct He as [_ He].
    destruct (numberParser_scientific m c e Hm Hc He H1) as [? ?]. auto.
Qed.

End ParserBranches.

(** ** The exact interpretation, further *)

Section ExactFurther.
Import Number.
Implicit Types (p : positive) (z bits : Z) (q : Q).

Lemma fin_eq q q' : (q == q')%Q → fin q = fin q'.
Proof. intros E. unfold fin. f_equal. by apply Qred_complete. Qed.

Lemma Qred_inject_Z z : Qred (inject_Z z) = inject_Z z.
Proof.
  unfold Qred, inject_Z.
  pose proof (Z.ggcd_gcd z 1) as Hg.
  pose proof (Z.ggcd_correct_divisors z 1) as Hd.
  destruct (Z.ggcd z 1) as [g [aa bb]]. simpl in Hg.
  rewrite Z.gcd_1_r in Hg. subst g. destruct Hd as [-> Hb].
  assert (bb = 1%Z) as -> by lia. simpl. f_equal. lia.
Qed.

Lemma lit_eq z : lit z = EFin (inject_Z z).
Proof. simpl. unfold fin. by rewrite Qred_inject_Z. Qed.

Lemma lit_plus z z' : plus (lit z) (lit z') = lit (z + z').
Proof.
  rewrite !lit_eq. simpl. rewrite <- (Qred_inject_Z (z + z')).
  apply fin_eq. by rewrite inject_Z_plus.
Qed.

Lemma lit_minus z z' : minus (lit z) (lit z') = lit (z - z').
Proof.
  rewrite !lit_eq. simpl. rewrite <- (Qred_inject_Z (z - z')).
  apply fin_eq. unfold Z.sub. by rewrite inject_Z_plus, inject_Z_opp, Qred_correct.
Qed.

(** [rank] throws on NaN.  On minus infinity and on every negative
    number it returns NaN, on zero minus infinity, and on infinity
    infinity. *)
Theorem rank_cases (x : erat) :
  match x with
  | ENaN => rank x = Throw (Error "(number) cannot run .rank() on NaN")
  | EInf negative => rank x = Ok (if negative then ENaN else EInf false)
  | EFin q =>
      ((q == 0)%Q → rank x = Ok (EInf true)) ∧
      ((q < 0)%Q → rank x = Ok ENaN)
  end.
Proof.
  destruct x as [|[]|[n d]]; [done..|].
  unfold rank. simpl. unfold Qeq, Qlt. simpl.
  destruct n as [|n|n]; split; try lia; done.
Qed.

(** [toRound] has no result for zero and for the two infinities: the
    count given to [repeat] is infinite there, and it throws a
    [RangeError], whatever the number of digits asked for. *)
Theorem toRound_zero_infinite (bits : option Z) :
  toRound (lit 0) bits = Throw RangeError ∧
  toRound (EInf false) bits = Throw RangeError ∧
  toRound (EInf true) bits = Throw RangeError.
Proof. repeat split; reflexivity. Qed.

Lemma negate_lit z : negate (lit z) = lit (- z).
Proof. rewrite !lit_eq. simpl. unfold fin. by rewrite <- (Qred_inject_Z (- z)). Qed.

Lemma ToIntegerOrInfinity_lit z : ToIntegerOrInfinity (lit z) = Int z.
Proof.
  rewrite lit_eq. change (Int (Z.quot z 1) = Int z). by rewrite Z.quot_1_r.
Qed.

(** The exact interpretation has the integers of the host, of any size. *)
Lemma exact_host_laws : HostLaws exact_host.
Proof.
  split.
  - intros a b _ _ _. apply lit_plus.
  - intros a b _ _ _. apply lit_minus.
  - intros a b _ _. rewrite !lit_eq.
    change (negb (b * 1 <=? a * 1)%Z = (a <? b)%Z). rewrite !Z.mul_1_r.
    destruct (Z.leb_spec b a), (Z.ltb_spec a b); simpl; done || lia.
  - intros a b _ _. rewrite negate_lit, !lit_eq.
    change ((a * 1 <=? - b * 1)%Z = (a <=? - b)%Z). by rewrite !Z.mul_1_r.
  - intros a _. apply ToIntegerOrInfinity_lit.
  - intros a b _ _ _. by rewrite negate_lit, lit_minus, ToIntegerOrInfinity_lit.
Qed.

End ExactFurther.

(** ** [toRound], branch by branch

    Where [toRound] puts the decimal point, for any arithmetic that has
    the integers of the host.  [k] is what [Math.floor(Math.log10(...))]
    returns for the absolute value, [round] the text of the rounded
    quotient; nothing is assumed of either. *)

Section Rounding.
Import Number.
Context {H : Host} {L : HostLaws H}.
Implicit Types (origin : number) (t k bits : Z) (d : list N).

Lemma mjoin_replicate_unit (n : nat) (c : N) :
  mjoin (replicate n [c]) = replicate n c.
Proof. induction n as [|n IH]; simpl; [done|]. by rewrite IH. Qed.

Lemma String_repeat_zero z :
  safe z → (0 ≤ z)%Z →
  String_repeat (js "0") (lit z) = Ok (replicate (Z.to_nat z) (ch "0")).
Proof.
  intros Hs Hz. unfold String_repeat. rewrite law_ToInteger by done.
  assert ((z <? 0)%Z = false) as -> by by apply Z.ltb_ge.
  change (js "0") with [ch "0"]. by rewrite mjoin_replicate_unit.
Qed.

Lemma String_repeat_zero_negate t bits :
  safe t → safe bits → safe (- t - bits) → (0 ≤ - t - bits)%Z →
  String_repeat (js "0") (minus (negate (lit t)) (lit bits))
  = Ok (replicate (Z.to_nat (- t - bits)) (ch "0")).
Proof.
  intros Ht Hb Hs Hz. unfold String_repeat.
  rewrite law_ToInteger_negate_minus by done.
  assert ((- t - bits <? 0)%Z = false) as -> by by apply Z.ltb_ge.
  change (js "0") with [ch "0"]. by rewrite mjoin_replicate_unit.
Qed.

Lemma safe_0 : safe 0.
Proof. unfold safe. lia. Qed.

(** *** Slices *)

Lemma slice_whole d :
  String_slice d (lit 0) (Some (lit 0)) = [] ∧ String_slice d (lit 0) None = d.
Proof.
  unfold String_slice. rewrite !law_ToInteger by apply safe_0.
  unfold slice_index. change (0 <? 0)%Z with false. cbv iota.
  change (Z.to_nat 0) with 0. rewrite Nat.min_0_l, Nat.sub_0_r, drop_0.
  split; [done|]. by rewrite Nat.sub_0_r, firstn_all.
Qed.

Lemma slice_front d t :
  safe t → (t < 0)%Z →
  String_slice d (lit 0) (Some (lit t)) = take (length d - Z.to_nat (- t)) d.
Proof.
  intros Hs Ht. unfold String_slice.
  rewrite (law_ToInteger 0), (law_ToInteger t) by (done || apply safe_0).
  unfold slice_index. change (0 <? 0)%Z with false. cbv iota.
  assert ((t <? 0)%Z = true) as -> by by apply Z.ltb_lt.
  change (Z.to_nat 0) with 0. rewrite Nat.min_0_l, Nat.sub_0_r, drop_0.
  f_equal. lia.
Qed.

Lemma slice_back d t :
  safe t → (t < 0)%Z →
  String_slice d (lit t) None = drop (length d - Z.to_nat (- t)) d.
Proof.
  intros Hs Ht. unfold String_slice. rewrite law_ToInteger by done.
  unfold slice_index.
  assert ((t <? 0)%Z = true) as -> by by apply Z.ltb_lt.
  replace (Z.to_nat (Z.max (Z.of_nat (length d) + t) 0))
    with (length d - Z.to_nat (- t)) by lia.
  apply take_ge. rewrite length_drop. lia.
Qed.

(** *** The text that [toRound] builds *)

Lemma toRound_text origin bits k :
  isNaN origin = false → (Z.abs bits ≤ 2 ^ 51)%Z → (Z.abs k ≤ 2 ^ 51)%Z →
  floor_log10 (Math_abs origin) = lit k →
  let t := (k - bits + 1)%Z in
  let round := round_String (divide (Math_abs origin) (pow10 (lit t))) in
  let sign := if less origin (lit 0) then js "-" else js EmptyString in
  toRound origin (Some bits) =
    Ok (parseFloat
          (sign ++
           (if (0 <? t)%Z then round ++ replicate (Z.to_nat t) (ch "0")
            else if (bits <=? - t)%Z
                 then js "0." ++ replicate (Z.to_nat (- t - bits)) (ch "0") ++ round
                 else if (t =? 0)%Z then ch "." :: round
                 else take (length round - Z.to_nat (- t)) round ++
                      ch "." :: drop (length round - Z.to_nat (- t)) round))).
Proof.
  intros Hnan Hbits Hk Hfloor. cbv zeta.
  remember (k - bits + 1)%Z as t eqn:Ht.
  assert (Hsafe : safe k ∧ safe bits ∧ safe (k - bits) ∧ safe 1 ∧ safe 0 ∧
                  safe (k - bits + 1) ∧ safe t ∧ safe (- t - bits))
    by (unfold safe; lia).
  destruct Hsafe as (S1 & S2 & S3 & S4 & S5 & S6 & S7 & S8).
  unfold toRound. change (default 6%Z (Some bits)) with bits. cbv zeta.
  rewrite Hnan, Hfloor. cbv iota.
  rewrite (law_minus k bits), (law_plus (k - bits) 1) by done.
  rewrite <- Ht.
  rewrite (law_less 0 t), (law_less_eq_negate bits t) by done.
  destruct (Z.ltb_spec 0 t) as [H0|H0].
  - by rewrite String_repeat_zero by (done || lia).
  - destruct (Z.leb_spec bits (- t)) as [H1|H1].
    + by rewrite String_repeat_zero_negate by (done || lia).
    + destruct (Z.eqb_spec t 0) as [E|E].
      * rewrite E.
        by destruct (slice_whole
                       (round_String (divide (Math_abs origin) (pow10 (lit 0)))))
          as [-> ->].
      * by rewrite slice_front, slice_back by (done || lia).
Qed.

(** A number that has as many digits before the point as are asked for
    comes back with the point in front of all of them: with nothing to
    shift, [round.slice(0, 0)] is empty and [round.slice(0)] is the whole
    text.  So for the six digits of the default. *)
Theorem toRound_full_width origin bits :
  isNaN origin = false → (1 ≤ bits ≤ 2 ^ 51)%Z →
  floor_log10 (Math_abs origin) = lit (bits - 1) →
  let round := round_String (divide (Math_abs origin) (pow10 (lit 0))) in
  let sign := if less origin (lit 0) then js "-" else js EmptyString in
  toRound origin (Some bits) = Ok (parseFloat (sign ++ ch "." :: round)) ∧
  (bits = 6%Z → toRound origin None = Ok (parseFloat (sign ++ ch "." :: round))).
Proof.
  intros Hnan Hbits Hfloor round sign.
  assert (E : toRound origin (Some bits)
              = Ok (parseFloat (sign ++ ch "." :: round))).
  { rewrite (toRound_text origin bits (bits - 1) Hnan) by (done || lia).
    cbv zeta. replace (bits - 1 - bits + 1)%Z with 0%Z by lia.
    change (0 <? 0)%Z with false. change (0 =? 0)%Z with true. cbv iota.
    by assert ((bits <=? - 0)%Z = false) as -> by (apply Z.leb_gt; lia). }
  split; [exact E|]. intros ->. exact E.
Qed.

(** A number of the decade [k] that has more digits before the point
    than are asked for comes back as the rounded digits followed by the
    zeros that were divided out; one that has some but fewer comes back
    with the point cut in from the end of the rounded digits, as many
    places as were multiplied in. *)
Theorem toRound_point_placed origin bits k :
  isNaN origin = false → (Z.abs bits ≤ 2 ^ 51)%Z → (Z.abs k ≤ 2 ^ 51)%Z →
  floor_log10 (Math_abs origin) = lit k →
  let t := (k - bits + 1)%Z in
  let round := round_String (divide (Math_abs origin) (pow10 (lit t))) in
  let sign := if less origin (lit 0) then js "-" else js EmptyString in
  ((0 < t)%Z →
   toRound origin (Some bits)
   = Ok (parseFloat (sign ++ round ++ replicate (Z.to_nat t) (ch "0")))) ∧
  ((t < 0)%Z → (0 ≤ k)%Z →
   toRound origin (Some bits)
   = Ok (parseFloat (sign ++ take (length round - Z.to_nat (- t)) round ++
                     ch "." :: drop (length round - Z.to_nat (- t)) round))).
Proof.
  intros Hnan Hbits Hk Hfloor t round sign.
  rewrite (toRound_text origin bits k Hnan Hbits Hk Hfloor). cbv zeta.
  fold t. fold round. fold sign. split.
  - intros Ht. by assert ((0 <? t)%Z = true) as -> by by apply Z.ltb_lt.
  - intros Ht Hk0.
    assert ((0 <? t)%Z = false) as -> by (apply Z.ltb_ge; lia).
    assert ((bits <=? - t)%Z = false) as -> by (apply Z.leb_gt; lia).
    by assert ((t =? 0)%Z = false) as -> by (apply Z.eqb_neq; lia).
Qed.

(** A number below one, of the decade [k <= -1], comes back as [0.],
    then [-k - 1] zeros, then the rounded digits, however many digits
    the rounding produced. *)
Theorem toRound_leading_zeros origin bits k :
  isNaN origin = false → (0 ≤ bits ≤ 2 ^ 51)%Z → (- 2 ^ 51 ≤ k ≤ -1)%Z →
  floor_log10 (Math_abs origin) = lit k →
  let round :=
    round_String (divide (Math_abs origin) (pow10 (lit (k - bits + 1)))) in
  let sign := if less origin (lit 0) then js "-" else js EmptyString in
  toRound origin (Some bits)
  = Ok (parseFloat (sign ++ js "0." ++
                    replicate (Z.to_nat (- k - 1)) (ch "0") ++ round)).
Proof.
  intros Hnan Hbits Hk Hfloor round sign.
  rewrite (toRound_text origin bits k Hnan) by (done || lia). cbv zeta.
  fold round. fold sign.
  assert ((0 <? k - bits + 1)%Z = false) as -> by (apply Z.ltb_ge; lia).
  assert ((bits <=? - (k - bits + 1))%Z = true) as -> by (apply Z.leb_le; lia).
  by replace (- (k - bits + 1) - bits)%Z with (- k - 1)%Z by lia.
Qed.

End Rounding.

(** ** [toRound] in the exact interpretation *)

Section RoundingExact.
Import Number.

Lemma toRound_full_width_witness :
  isNaN (lit 123456) = false ∧ (1 ≤ 6 ≤ 2 ^ 51)%Z ∧
  floor_log10 (Math_abs (lit 123456)) = lit (6 - 1) ∧
  toRound (lit 123456) (Some 6%Z) = Ok (dec 123456 (-6)) ∧
  toRound (lit 123456) None = Ok (dec 123456 (-6)).
Proof.
  assert (H1 : isNaN (lit 123456) = false) by reflexivity.
  assert (H2 : (1 ≤ 6 ≤ 2 ^ 51)%Z) by lia.
  assert (H3 : floor_log10 (Math_abs (lit 123456)) = lit (6 - 1)) by reflexivity.
  split; [exact H1|]. split; [exact H2|]. split; [exact H3|].
  destruct (toRound_full_width (L := exact_host_laws) (lit 123456) 6 H1 H2 H3)
    as [Ha Hb].
  split.
  - rewrite Ha. reflexivity.
  - rewrite (Hb eq_refl). reflexivity.
Defined.

Lemma toRound_point_placed_witness :
  isNaN (lit 123456789) = false ∧
  floor_log10 (Math_abs (lit 123456789)) = lit 8 ∧
  toRound (lit 123456789) (Some 6%Z) = Ok (lit 123457000) ∧
  isNaN (lit (-42)) = false ∧
  floor_log10 (Math_abs (lit (-42))) = lit 1 ∧
  toRound (lit (-42)) (Some 6%Z) = Ok (lit (-42)).
Proof.
  assert (H1 : isNaN (lit 123456789) = false) by reflexivity.
  assert (H2 : floor_log10 (Math_abs (lit 123456789)) = lit 8) by reflexivity.
  assert (H3 : isNaN (lit (-42)) = false) by reflexivity.
  assert (H4 : floor_log10 (Math_abs (lit (-42))) = lit 1) by reflexivity.
  assert (B6 : (Z.abs 6 ≤ 2 ^ 51)%Z) by (simpl; lia).
  assert (B8 : (Z.abs 8 ≤ 2 ^ 51)%Z) by (simpl; lia).
  assert (B1 : (Z.abs 1 ≤ 2 ^ 51)%Z) by (simpl; lia).
  split; [exact H1|]. split; [exact H2|]. split; [|split; [exact H3|split; [exact H4|]]].
  - rewrite (proj1 (toRound_point_placed (L := exact_host_laws)
                      (lit 123456789) 6 8 H1 B6 B8 H2)) by lia.
    reflexivity.
  - rewrite (proj2 (toRound_point_placed (L := exact_host_laws)
                      (lit (-42)) 6 1 H3 B6 B1 H4)) by lia.
    reflexivity.
Defined.

Lemma toRound_leading_zeros_witness :
  isNaN (dec 1234567 (-10)) = false ∧ (0 ≤ 6 ≤ 2 ^ 51)%Z ∧
  (- 2 ^ 51 ≤ -4 ≤ -1)%Z ∧
  floor_log10 (Math_abs (dec 1234567 (-10))) = lit (-4) ∧
  toRound (dec 1234567 (-10)) (Some 6%Z) = Ok (dec 123457 (-9)).
Proof.
  assert (H1 : isNaN (dec 1234567 (-10)) = false) by reflexivity.
  assert (H2 : (0 ≤ 6 ≤ 2 ^ 51)%Z) by lia.
  assert (H3 : (- 2 ^ 51 ≤ -4 ≤ -1)%Z) by lia.
  assert (H4 : floor_log10 (Math_abs (dec 1234567 (-10))) = lit (-4))
    by reflexivity.
  split; [exact H1|]. split; [exact H2|]. split; [exact H3|]. split; [exact H4|].
  rewrite (toRound_leading_zeros (L := exact_host_laws)
             (dec 1234567 (-10)) 6 (-4) H1 H2 H3 H4).
  reflexivity.
Defined.

End RoundingExact.
